(** * The memory bank: remember / forget / recall over a JSON document store

    A shallow embedding of [src/api/server.ts].

    The handlers are asynchronous functions: every [await redis.…] is a
    point where the handler hands a request to the store and is resumed
    with the answer or with an exception.  They are embedded as finite
    programs over those requests ([prog]), run against an explicit world
    ([run]) or interleaved with one another at the awaits ([interleave]). *)

From Stdlib Require Import ZArith String Ascii List.
From stdpp Require Import base option gmap strings list fin_maps pretty.

Set Warnings "-register-all".

Open Scope string_scope.
Open Scope list_scope.
Open Scope Z_scope.

(** ** JSON values *)

(** The values the store holds and the handlers render.  Numbers are the
    integers (the handlers only ever meet array lengths and an index). *)
Inductive json : Type :=
| JNull
| JBool (b : bool)
| JNum (n : Z)
| JStr (s : string)
| JArr (items : list json)
| JObj (fields : list (string * json)).

(** A JavaScript [Error]: what a failing store request throws. *)
Record Error : Type := { message : string }.

(** [String(n)] for a safe integer Number, that is for |n| ≤ 2^53 - 1: its
    decimal numeral.  Beyond the safe integers the language prints the
    shortest digits that read back as the same Number and, from 10^21 on,
    exponent notation; that is not modelled, and the statements below
    assert the rendering of an index only for safe integers or for
    positions of a list. *)
Definition Number_toString (n : Z) : string := pretty n.

(** [String(v)], the conversion a template literal applies to [${v}]. *)
Fixpoint String_of (v : json) : string :=
  match v with
  | JNull => "null"
  | JBool b => if b then "true" else "false"
  | JNum n => Number_toString n
  | JStr s => s
  | JArr items =>
      String.concat ","
        (map (λ x, match x with JNull => EmptyString | _ => String_of x end) items)
  | JObj _ => "[object Object]"
  end.

(** ** The requests of the store *)

(** The JSON path of a request; the handlers only ever pass ["$"]. *)
Inductive jsonpath : Type := Root.

(** The array of matches the store answers for a path; for the root path
    it has one element, which the handlers read as [memory[0]] and
    [result[0]]. *)
Record matches : Type := Matches { at0 : json }.

(** One constructor per method of the [redis] client the handlers call,
    indexed by the type of its answer. *)
Inductive call : Type → Type :=
| Exists (key : string) : call Z
| JsonGet (key : string) (path : jsonpath) : call (option matches)
| JsonSet (key : string) (path : jsonpath) (value : json) : call unit
| JsonArrAppend (key : string) (path : jsonpath) (value : json) : call unit
| JsonArrPop (key : string) (path : jsonpath) (index : Z) : call (option matches).

(** What the store's request log records about one request. *)
Inductive logged : Type :=
| Done {A : Type} (c : call A)
| Failedcall {A : Type} (c : call A) (msg : string).

(** ** Asynchronous programs *)

(** [Call c k] awaits request [c] and resumes with its answer or with the
    error it threw; [Now k] reads [new Date().toISOString()]. *)
Inductive prog (R : Type) : Type :=
| Ret (r : R)
| Throw (e : Error)
| Call {A : Type} (c : call A) (k : A + Error → prog R)
| Now (k : string → prog R).

Arguments Ret {R} r.
Arguments Throw {R} e.
Arguments Call {R A} c k.
Arguments Now {R} k.

Fixpoint bind {A B : Type} (p : prog A) (f : A → prog B) : prog B :=
  match p with
  | Ret a => f a
  | Throw e => Throw e
  | Call c k => Call c (λ o, bind (k o) f)
  | Now k => Now (λ t, bind (k t) f)
  end.

#[global] Instance prog_ret : MRet prog := @Ret.
#[global] Instance prog_bind : MBind prog := λ A B f p, bind p f.

(** [await redis.c]: the answer, or the exception rethrown at the await. *)
Definition await {A : Type} (c : call A) : prog A :=
  Call c (λ o, match o with inl a => Ret a | inr e => Throw e end).

(** [new Date().toISOString()] *)
Definition toISOString_now : prog string := Now Ret.

(** [try { p } catch (e) { h e }] *)
Fixpoint try_catch {R : Type} (p : prog R) (h : Error → prog R) : prog R :=
  match p with
  | Ret r => Ret r
  | Throw e => h e
  | Call c k => Call c (λ o, try_catch (k o) h)
  | Now k => Now (λ t, try_catch (k t) h)
  end.

(** ** The world the handlers run in *)

(** [docs] is the store: one JSON document per existing key.  [faults] is
    the fate of the coming store requests, in order: [Some msg] makes the
    request throw [Error(msg)] and leave the store as it was, [None] lets
    it through; requests beyond the end of the list go through.  [trace]
    is the log of the requests the store has received.  [clock] is the
    text [new Date().toISOString()] currently yields. *)
Record world : Type := World {
  docs : gmap string json;
  faults : list (option string);
  trace : list logged;
  clock : string
}.

Section Store.

(** The position the store's array-pop primitive removes, given the index
    it is passed and the length of the array, or [None] when it finds no
    element there.  The primitive belongs to the Redis client, which is not
    under [src/]; the handlers hand it the caller's index as it is. *)
Variable locate : Z → nat → option nat.

(** Modelled from the spec: the primitives of the backing document store
    (the [@upstash/redis] client, an external service that is not under
    [src/]), after section 4.3: [exists(key)]; [getDocument], null for an
    absent key and otherwise the enclosing array of matches;
    [setDocument], a whole-value set that creates the key;
    [appendToArray], which appends to an existing array; and
    [removeFromArray], which removes and returns the element at the index
    or answers null.  Where the spec is silent (appending to, or popping
    from, a key that is absent or holds no array) the store is left as it
    is. *)
Definition exec {A : Type} (c : call A) (d : gmap string json)
  : A * gmap string json :=
  match c in call T return T * gmap string json with
  | Exists key =>
      (match d !! key with Some _ => 1 | None => 0 end, d)
  | JsonGet key Root =>
      (Matches <$> d !! key, d)
  | JsonSet key Root value =>
      (tt, <[key := value]> d)
  | JsonArrAppend key Root value =>
      match d !! key with
      | Some (JArr items) => (tt, <[key := JArr (items ++ [value])]> d)
      | _ => (tt, d)
      end
  | JsonArrPop key Root index =>
      match d !! key with
      | Some (JArr items) =>
          match locate index (length items) with
          | Some pos =>
              match items !! pos with
              | Some x => (Some (Matches x), <[key := JArr (delete pos items)]> d)
              | None => (None, d)
              end
          | None => (None, d)
          end
      | _ => (None, d)
      end
  end.

(** One store request against the world: it is logged, it consumes the
    next entry of the fault schedule, and it either throws or is executed. *)
Definition perform {A : Type} (c : call A) (w : world) : (A + Error) * world :=
  match faults w with
  | Some msg :: rest =>
      (inr {| message := msg |},
       World (docs w) rest (trace w ++ [Failedcall c msg]) (clock w))
  | None :: rest =>
      let '(a, d) := exec c (docs w) in
      (inl a, World d rest (trace w ++ [Done c]) (clock w))
  | [] =>
      let '(a, d) := exec c (docs w) in
      (inl a, World d [] (trace w ++ [Done c]) (clock w))
  end.

(** Running a program to its end: its result, or the exception that
    escaped it, and the world it leaves. *)
Fixpoint run {R : Type} (p : prog R) (w : world) : (R + Error) * world :=
  match p with
  | Ret r => (inl r, w)
  | Throw e => (inr e, w)
  | Call c k => let '(o, w') := perform c w in run (k o) w'
  | Now k => run (k (clock w)) w
  end.

(** One scheduling step: the program runs up to and including its next
    await (or clock read) and is suspended again. *)
Definition step {R : Type} (p : prog R) (w : world) : prog R * world :=
  match p with
  | Call c k => let '(o, w') := perform c w in (k o, w')
  | Now k => (k (clock w), w)
  | _ => (p, w)
  end.

(** Two handler invocations in flight; the schedule says which one takes
    the next step ([true]: the first). *)
Fixpoint interleave {R : Type} (sched : list bool) (pA pB : prog R) (w : world)
  : prog R * prog R * world :=
  match sched with
  | [] => (pA, pB, w)
  | true :: sched' => let '(pA', w') := step pA w in interleave sched' pA' pB w'
  | false :: sched' => let '(pB', w') := step pB w in interleave sched' pA pB' w'
  end.

End Store.

(** ** Requests and responses of the protocol layer *)

(** The request metadata the framework hands to a handler: [requestInfo]
    may be undefined, and so may its [headers]. *)
Record RequestInfo : Type := { headers : option (gmap string string) }.

(** The URL a resource is read under. *)
Record URL : Type := { href : string }.

(** The result of a tool call: [{ content: [{ type, text }] }]. *)
Module Tool.
Record item : Type := { type : string; text : string }.
Record result : Type := { content : list item }.
End Tool.

(** The result of a resource read: [{ contents: [{ uri, mimeType, text }] }]. *)
Module Resource.
Record item : Type := { uri : string; mimeType : string; text : string }.
Record result : Type := { contents : list item }.
End Resource.

(** [{ content: [{ type: "text", text }] }] *)
Definition text_result (text : string) : Tool.result :=
  {| Tool.content := [ {| Tool.type := "text"; Tool.text := text |} ] |}.

(** ** The handlers *)

Definition getMemoryKey (userEmail : string) : string :=
  "memory:" +:+ userEmail.

Definition getUser (request : option RequestInfo) : option string :=
  match request with
  | Some r =>
      match headers r with
      | Some h => h !! "x-user-email"
      | None => None
      end
  | None => None
  end.

(** [!user]: undefined and the empty string are falsy. *)
Definition not_user (user : option string) : bool :=
  match user with
  | Some (String _ _) => false
  | _ => true
  end.

Section Handlers.

(** [JSON.stringify], a builtin of the language. *)
Variable stringify : json → string.

(** The handler of the tool "memory.remember". *)
Definition remember (record : string) (requestInfo : option RequestInfo)
  : prog Tool.result :=
  match getUser requestInfo with
  | Some (String _ _ as user) =>
      let key := getMemoryKey user in
      try_catch
        (exists_ ← await (Exists key);
         _ ← (if negb (exists_ =? 0)
              then await (JsonArrAppend key Root (JStr record))
              else await (JsonSet key Root (JArr [JStr record])));
         timestamp ← toISOString_now;
         Ret (text_result
                ("Stored memory about: " +:+ record +:+ " on " +:+ timestamp +:+ " UTC")))
        (λ error,
           Ret (text_result ("Error storing memory item: " +:+ message error)))
  | _ => Ret (text_result "Memory feature is not available for guest users.")
  end.

(** The handler of the tool "memory.forget". *)
Definition forget (index : Z) (requestInfo : option RequestInfo)
  : prog Tool.result :=
  match getUser requestInfo with
  | Some (String _ _ as user) =>
      let key := getMemoryKey user in
      try_catch
        (result ← await (JsonArrPop key Root index);
         match result with
         | Some result =>
             Ret (text_result
                    ("Removed memory item at index " +:+ Number_toString index +:+
                     " about: " +:+ String_of (at0 result)))
         | None =>
             Ret (text_result
                    ("No memory item found at index " +:+ Number_toString index +:+ "."))
         end)
        (λ error,
           Ret (text_result
                  ("Error removing memory item " +:+ Number_toString index +:+ ": " +:+
                   message error)))
  | _ => Ret (text_result "Memory feature is not available for guest users.")
  end.

(** The handler of the resource "memory.recall". *)
Definition recall (uri : URL) (requestInfo : option RequestInfo)
  : prog Resource.result :=
  match getUser requestInfo with
  | Some (String _ _ as user) =>
      try_catch
        (let key := getMemoryKey user in
         memory ← await (JsonGet key Root);
         let memoryData :=
           match memory with Some memory => at0 memory | None => JArr [] end in
         Ret {| Resource.contents :=
                  [ {| Resource.uri := href uri;
                       Resource.mimeType := "application/json";
                       Resource.text := stringify memoryData |} ] |})
        (λ error,
           Ret {| Resource.contents :=
                    [ {| Resource.uri := "resource://memory.recall";
                         Resource.mimeType := "application/json";
                         Resource.text :=
                           stringify (JObj [("error", JStr (message error))]) |} ] |})
  | _ =>
      Ret {| Resource.contents :=
               [ {| Resource.uri := href uri;
                    Resource.mimeType := "application/json";
                    Resource.text :=
                      stringify (JObj [("error", JStr "User not found")]) |} ] |}
  end.

End Handlers.

(** [{ contents: [{ uri, mimeType: "application/json", text }] }] *)
Definition json_contents (uri text : string) : Resource.result :=
  {| Resource.contents :=
       [ {| Resource.uri := uri;
            Resource.mimeType := "application/json";
            Resource.text := text |} ] |}.

(** ** Instances of what lies outside the source *)

(** Modelled from the spec: the index rule of [removeFromArray], which
    removes "the element at [index]", a 0-based position, and answers null
    "if out of range". *)
Definition locate_spec (index : Z) (len : nat) : option nat :=
  if decide (0 ≤ index < Z.of_nat len) then Some (Z.to_nat index) else None.

(** [JSON.stringify] on the values of [json], for strings of bytes. *)
Definition hex_digit (n : N) : ascii :=
  match String.get (N.to_nat n) "0123456789abcdef" with
  | Some c => c
  | None => "0"%char
  end.

Definition escape (c : ascii) : string :=
  let n := N_of_ascii c in
  if (n =? 34)%N then String "\" (String c EmptyString)
  else if (n =? 92)%N then "\\"
  else if (n =? 8)%N then "\b"
  else if (n =? 9)%N then "\t"
  else if (n =? 10)%N then "\n"
  else if (n =? 12)%N then "\f"
  else if (n =? 13)%N then "\r"
  else if (n <? 32)%N then
    "\u00" +:+ String (hex_digit (n / 16)) (String (hex_digit (n mod 16)) EmptyString)
  else String c EmptyString.

Fixpoint escape_all (s : string) : string :=
  match s with
  | EmptyString => EmptyString
  | String c s' => escape c +:+ escape_all s'
  end.

Definition quote (s : string) : string :=
  String "034" (escape_all s +:+ String "034" EmptyString).

Fixpoint JSON_stringify (v : json) : string :=
  match v with
  | JNull => "null"
  | JBool b => if b then "true" else "false"
  | JNum n => Number_toString n
  | JStr s => quote s
  | JArr items => "[" +:+ String.concat "," (map JSON_stringify items) +:+ "]"
  | JObj fields =>
      "{" +:+
      String.concat ","
        (map (λ kv, quote kv.1 +:+ ":" +:+ JSON_stringify kv.2) fields) +:+
      "}"
  end.

(** ** Vocabulary of the statements *)

(** The request carries the identity [user]. *)
Definition signed_in (requestInfo : option RequestInfo) (user : string) : Prop :=
  getUser requestInfo = Some user ∧ user ≠ EmptyString.

(** No store request is scheduled to fail. *)
Definition calm (schedule : list (option string)) : Prop :=
  ∀ msg, Some msg ∉ schedule.

Definition quiet (w : world) : Prop := calm (faults w).

(** In a schedule of two invocations, the one named [who] takes [n] steps. *)
Definition takes (who : bool) (n : nat) (sched : list bool) : Prop :=
  count_occ bool_dec sched who = n.

(** [Number.isSafeInteger(n)] *)
Definition safe_integer (n : Z) : Prop := - (2 ^ 53 - 1) ≤ n ≤ 2 ^ 53 - 1.

(** [rendered] is what [${index}] prints: the decimal numeral when the
    index is a safe integer (nothing is said of the other Numbers). *)
Definition renders (index : Z) (rendered : string) : Prop :=
  safe_integer index → rendered = Number_toString index.

(** The next store request is not scheduled to fail. *)
Definition goes_through (w : world) : Prop :=
  ∀ msg rest, faults w ≠ Some msg :: rest.

(** The MemoryList of the data model: a JSON array of text items. *)
Definition memory_list (items : list string) : json := JArr (JStr <$> items).

(** A request that is a whole-document set. *)
Definition is_set (e : logged) : Prop :=
  match e with
  | Done (JsonSet _ _ _) | Failedcall (JsonSet _ _ _) _ => True
  | _ => False
  end.

(** Every failed request of the log is its last one, and the response is
    the payload made for the message of that failure. *)
Definition answered_with {R : Type} (log : list logged) (resp : R)
    (payload : string → R) : Prop :=
  ∀ pre A (c : call A) msg post,
    log = pre ++ Failedcall c msg :: post → post = [] ∧ resp = payload msg.

(** The world after the records are remembered one after the other. *)
Definition remember_all (locate : Z → nat → option nat)
    (requestInfo : option RequestInfo) (records : list string) (w : world) : world :=
  fold_left (λ w record, (run locate (remember record requestInfo) w).2) records w.

(** A handler invocation at some point of its execution: as it is called,
    or as it was resumed after one of its awaits, whatever the answer. *)
Inductive in_flight (stringify : json → string) : ∀ {R : Type}, prog R → Prop :=
| called_remember record requestInfo :
    in_flight stringify (remember record requestInfo)
| called_forget index requestInfo :
    in_flight stringify (forget index requestInfo)
| called_recall uri requestInfo :
    in_flight stringify (recall stringify uri requestInfo)
| resumed {R : Type} (p : prog R) locate w :
    in_flight stringify p → in_flight stringify (step locate p w).1.

(** The worlds the system can be in: it starts on an empty store, with any
    fault schedule; any invocation in flight may take the next step, in any
    order; and time passes. *)
Inductive reachable (locate : Z → nat → option nat) (stringify : json → string)
  : world → Prop :=
| reach_start schedule time :
    reachable locate stringify (World ∅ schedule [] time)
| reach_step {R : Type} (p : prog R) w :
    reachable locate stringify w → in_flight stringify p →
    reachable locate stringify (step locate p w).2
| reach_tick w time :
    reachable locate stringify w →
    reachable locate stringify (World (docs w) (faults w) (trace w) time).

(** Requests that write nothing but text items: a set of a whole list of
    them, or the append of one. *)
Definition writes_text {A : Type} (c : call A) : Prop :=
  match c with
  | JsonSet _ _ value => ∃ items, value = memory_list items
  | JsonArrAppend _ _ value => ∃ item, value = JStr item
  | _ => True
  end.

(** Programs all of whose requests are such. *)
Fixpoint tame {R : Type} (p : prog R) : Prop :=
  match p with
  | Ret _ | Throw _ => True
  | Call c k => writes_text c ∧ ∀ o, tame (k o)
  | Now k => ∀ t, tame (k t)
  end.

(** Every document of the store is a list of text items. *)
Definition all_lists (d : gmap string json) : Prop :=
  ∀ key doc, d !! key = Some doc → ∃ items, doc = memory_list items.

(** ** Vocabulary of the further properties *)

(** The key a request of the store addresses. *)
Definition call_key {A : Type} (c : call A) : string :=
  match c with
  | Exists key => key
  | JsonGet key _ => key
  | JsonSet key _ _ => key
  | JsonArrAppend key _ _ => key
  | JsonArrPop key _ _ => key
  end.

(** Programs all of whose requests address the one key. *)
Fixpoint confined (key : string) {R : Type} (p : prog R) : Prop :=
  match p with
  | Ret _ | Throw _ => True
  | Call c k => call_key c = key ∧ ∀ o, confined key (k o)
  | Now k => ∀ t, confined key (k t)
  end.

(** Programs none of whose requests writes. *)
Fixpoint reads_only {R : Type} (p : prog R) : Prop :=
  match p with
  | Ret _ | Throw _ => True
  | Call c k =>
      match c with Exists _ | JsonGet _ _ => True | _ => False end ∧
      ∀ o, reads_only (k o)
  | Now k => ∀ t, reads_only (k t)
  end.

(** One invocation of a handler, with its arguments. *)
Inductive request : Type :=
| Remember (record : string) (requestInfo : option RequestInfo)
| Forget (index : Z) (requestInfo : option RequestInfo)
| Recall (uri : URL) (requestInfo : option RequestInfo).

Definition sender (r : request) : option RequestInfo :=
  match r with
  | Remember _ requestInfo | Forget _ requestInfo | Recall _ requestInfo =>
      requestInfo
  end.

(** The world after a request is served, and after a sequence of them. *)
Definition serve (locate : Z → nat → option nat) (stringify : json → string)
    (r : request) (w : world) : world :=
  match r with
  | Remember record requestInfo => (run locate (remember record requestInfo) w).2
  | Forget index requestInfo => (run locate (forget index requestInfo) w).2
  | Recall uri requestInfo => (run locate (recall stringify uri requestInfo) w).2
  end.

Definition serve_all (locate : Z → nat → option nat) (stringify : json → string)
    (rs : list request) (w : world) : world :=
  fold_left (λ w r, serve locate stringify r w) rs w.

(** The records the user asks to remember in a sequence of requests. *)
Definition remembered_by (user : string) (rs : list request) : list string :=
  omap (λ r, match r with
             | Remember record requestInfo =>
                 if decide (getUser requestInfo = Some user) then Some record
                 else None
             | _ => None
             end) rs.

(** The user sends nothing but Appends. *)
Definition only_remembers (user : string) (rs : list request) : Prop :=
  ∀ r, r ∈ rs → getUser (sender r) = Some user →
       ∃ record, r = Remember record (sender r).

(** A tool result with exactly one item, of type "text"; a resource result
    with exactly one item, of MIME type "application/json". *)
Definition one_text_item (resp : Tool.result) : Prop :=
  ∃ text, resp = text_result text.

Definition one_json_item (resp : Resource.result) : Prop :=
  ∃ uri text, resp = json_contents uri text.

(** ** Concrete inputs *)

(** A request of the user alice, and requests of a guest. *)
Definition alice : option RequestInfo :=
  Some {| headers := Some {[ "x-user-email" := "alice@example.com" ]} |}.

Definition guest : option RequestInfo :=
  Some {| headers := Some {[ "accept" := "application/json" ]} |}.

Definition recall_uri : URL := {| href := "resource://memory.recall" |}.

(** An empty store on which nothing fails, a store on which the second
    request fails, and a store holding two memories of alice. *)
Definition fresh : world := World ∅ [] [] "2025-06-01T12:00:00.000Z".

Definition flaky : world :=
  World ∅ [None; Some "fetch failed"] [] "2025-06-01T12:00:00.000Z".

Definition two_memories : world :=
  World {[ "memory:alice@example.com" :=
             memory_list ["likes tea"; "works at Acme"] ]}
        [] [] "2025-06-01T12:00:00.000Z".

(** A store holding memories of alice and of bob. *)
Definition bob : option RequestInfo :=
  Some {| headers := Some {[ "x-user-email" := "bob@example.com" ]} |}.

Definition shared : world :=
  World {[ "memory:alice@example.com" := memory_list ["likes tea"];
           "memory:bob@example.com" := memory_list ["plays chess"] ]}
        [Some "fetch failed"] [] "2025-06-01T12:00:00.000Z".

Definition emptied : world :=
  World {[ "memory:alice@example.com" := memory_list [] ]}
        [] [] "2025-06-01T12:00:00.000Z".

Definition three_memories : world :=
  World {[ "memory:alice@example.com" :=
             memory_list ["likes tea"; "works at Acme"; "has a cat"] ]}
        [] [] "2025-06-01T12:00:00.000Z".

(** A day of requests: alice appends twice, bob and a guest come between. *)
Definition busy_day : list request :=
  [ Remember "likes tea" alice;
    Remember "plays chess" bob;
    Recall recall_uri guest;
    Forget 0 bob;
    Remember "works at Acme" alice ].

(** * Facts about the store and the runner *)

Lemma calm_tail schedule : calm schedule → calm (tail schedule).
Proof.
  unfold calm. intros H msg Hin. apply (H msg).
  destruct schedule; [done | by right].
Qed.

Lemma calm_cases schedule :
  calm schedule → schedule = [] ∨ ∃ rest, schedule = None :: rest.
Proof.
  unfold calm. destruct schedule as [|[msg|] rest]; eauto.
  intros H. exfalso. apply (H msg). left.
Qed.

Ltac quiet_tac :=
  unfold quiet in *; simpl; repeat apply calm_tail; assumption.

Section Facts.

Variable locate : Z → nat → option nat.
Variable stringify : json → string.

Lemma quiet_tail (w : world) d t c :
  quiet w → quiet (World d (tail (faults w)) t c).
Proof. apply calm_tail. Qed.

Lemma quiet_no_fault (w : world) msg rest :
  quiet w → faults w ≠ Some msg :: rest.
Proof. intros H E. apply (H msg). rewrite E. left. Qed.

(** In a quiet world a request is executed and logged. *)
Lemma perform_quiet {A} (c : call A) (w : world) :
  quiet w →
  perform locate c w =
    (inl (exec locate c (docs w)).1,
     World (exec locate c (docs w)).2 (tail (faults w)) (trace w ++ [Done c]) (clock w)).
Proof.
  intros [E | [rest E]]%calm_cases; unfold perform; rewrite E;
    by destruct (exec locate c (docs w)).
Qed.

Lemma signed_in_inv requestInfo user :
  signed_in requestInfo user →
  ∃ a u, user = String a u ∧ getUser requestInfo = Some (String a u).
Proof.
  intros [Hu Hne]. destruct user as [|a u]; [done|]. eauto.
Qed.

Lemma length_memory_list (items : list string) :
  length (JStr <$> items) = length items.
Proof. apply length_fmap. Qed.

(** The store's read answers null exactly for an absent key. *)
Lemma get_null_iff (d : gmap string json) key :
  (exec locate (JsonGet key Root) d).1 = None ↔ d !! key = None.
Proof. simpl. by destruct (d !! key). Qed.

(** ** The index rule of the spec *)

(** The spec's rule finds the element at a 0-based position and nothing
    elsewhere. *)
Lemma locate_spec_in_range index len :
  0 ≤ index < Z.of_nat len → locate_spec index len = Some (Z.to_nat index).
Proof. intros H. unfold locate_spec. by rewrite decide_True. Qed.


(** ** The handlers in a quiet world *)

Ltac enter H :=
  let a := fresh "a" in
  let u := fresh "u" in
  let Hu := fresh "Hu" in
  apply signed_in_inv in H as (a & u & -> & Hu);
  unfold remember, forget, recall; rewrite Hu; simpl.

Lemma remember_absent record requestInfo user w :
  signed_in requestInfo user → quiet w →
  docs w !! getMemoryKey user = None →
  run locate (remember record requestInfo) w =
    (inl (text_result
            ("Stored memory about: " +:+ record +:+ " on " +:+ clock w +:+ " UTC")),
     World (<[getMemoryKey user := JArr [JStr record]]> (docs w))
           (tail (tail (faults w)))
           (trace w ++ [Done (Exists (getMemoryKey user));
                        Done (JsonSet (getMemoryKey user) Root (JArr [JStr record]))])
           (clock w)).
Proof.
  intros Hin Hq Hdoc. enter Hin.
  rewrite perform_quiet by done. simpl. rewrite Hdoc. simpl.
  rewrite perform_quiet by (by apply quiet_tail). simpl.
  by rewrite <- app_assoc.
Qed.

Lemma remember_present record requestInfo user doc w :
  signed_in requestInfo user → quiet w →
  docs w !! getMemoryKey user = Some doc →
  run locate (remember record requestInfo) w =
    (inl (text_result
            ("Stored memory about: " +:+ record +:+ " on " +:+ clock w +:+ " UTC")),
     World (match doc with
            | JArr items =>
                <[getMemoryKey user := JArr (items ++ [JStr record])]> (docs w)
            | _ => docs w
            end)
           (tail (tail (faults w)))
           (trace w ++ [Done (Exists (getMemoryKey user));
                        Done (JsonArrAppend (getMemoryKey user) Root (JStr record))])
           (clock w)).
Proof.
  intros Hin Hq Hdoc. enter Hin.
  rewrite perform_quiet by done. simpl. rewrite Hdoc. simpl.
  rewrite perform_quiet by (by apply quiet_tail). simpl. rewrite Hdoc.
  rewrite <- app_assoc. by destruct doc.
Qed.

Lemma forget_quiet index requestInfo user w :
  signed_in requestInfo user → quiet w →
  run locate (forget index requestInfo) w =
    (inl (text_result
            match (exec locate (JsonArrPop (getMemoryKey user) Root index) (docs w)).1 with
            | Some result =>
                "Removed memory item at index " +:+ Number_toString index +:+
                " about: " +:+ String_of (at0 result)
            | None =>
                "No memory item found at index " +:+ Number_toString index +:+ "."
            end),
     World (exec locate (JsonArrPop (getMemoryKey user) Root index) (docs w)).2
           (tail (faults w))
           (trace w ++ [Done (JsonArrPop (getMemoryKey user) Root index)])
           (clock w)).
Proof.
  intros Hin Hq.
  destruct (exec locate (JsonArrPop (getMemoryKey user) Root index) (docs w))
    as [r d] eqn:E.
  enter Hin. rewrite perform_quiet, E by done. by destruct r.
Qed.

Lemma recall_quiet uri requestInfo user w :
  signed_in requestInfo user → quiet w →
  run locate (recall stringify uri requestInfo) w =
    (inl (json_contents (href uri)
            (stringify match docs w !! getMemoryKey user with
                       | Some doc => doc
                       | None => JArr []
                       end)),
     World (docs w) (tail (faults w))
           (trace w ++ [Done (JsonGet (getMemoryKey user) Root)]) (clock w)).
Proof.
  intros Hin Hq. enter Hin.
  rewrite perform_quiet by done. simpl.
  by destruct (docs w !! _).
Qed.


Lemma delete_memory_list pos (items : list string) :
  delete pos (JStr <$> items) = JStr <$> delete pos items.
Proof.
  revert items. induction pos as [|n IH]; intros [|y l]; simpl; try done.
  f_equal. apply IH.
Qed.

(** A hit: the store finds the text item [x] at the position it reads the
    index as. *)
Lemma forget_hit index requestInfo user (items : list string) pos x w :
  signed_in requestInfo user → quiet w →
  docs w !! getMemoryKey user = Some (memory_list items) →
  locate index (length items) = Some pos →
  items !! pos = Some x →
  run locate (forget index requestInfo) w =
    (inl (text_result
            ("Removed memory item at index " +:+ Number_toString index +:+
             " about: " +:+ x)),
     World (<[getMemoryKey user := memory_list (delete pos items)]> (docs w))
           (tail (faults w))
           (trace w ++ [Done (JsonArrPop (getMemoryKey user) Root index)])
           (clock w)).
Proof.
  intros Hin Hq Hdoc Hloc Hx. rewrite (forget_quiet _ _ _ _ Hin Hq). simpl.
  rewrite Hdoc. unfold memory_list.
  by rewrite length_memory_list, Hloc, list_lookup_fmap, Hx, delete_memory_list.
Qed.

(** Remembering on a list of text items extends it at the tail. *)
Lemma remember_all_present requestInfo user (records items : list string) w :
  signed_in requestInfo user → quiet w →
  docs w !! getMemoryKey user = Some (memory_list items) →
  quiet (remember_all locate requestInfo records w) ∧
  docs (remember_all locate requestInfo records w) !! getMemoryKey user =
    Some (memory_list (items ++ records)).
Proof.
  intros Hin. revert items w.
  induction records as [|r records IH]; intros items w Hq Hdoc; simpl.
  - by rewrite app_nil_r.
  - rewrite (remember_present r _ _ _ _ Hin Hq Hdoc). simpl.
    replace (items ++ r :: records) with ((items ++ [r]) ++ records)
      by (by rewrite <- app_assoc).
    apply IH.
    + apply (quiet_tail (World (docs w) (tail (faults w)) [] (clock w))).
      by apply quiet_tail.
    + simpl. rewrite lookup_insert_eq. unfold memory_list.
      by rewrite fmap_app.
Qed.

(** * The claims *)

(** C6. A caller without identity (no request metadata, no headers, no
    ["x-user-email"] header, or an empty one) gets the fixed guest response
    of each of the three operations, whatever the record, the index or the
    URL: the handler is that response and nothing else, so it sends the
    store no request, and the world (documents, request log, fault
    schedule) is as it was. *)
Theorem guest_gets_fixed_response requestInfo record index uri w :
  not_user (getUser requestInfo) = true →
  remember record requestInfo =
    Ret (text_result "Memory feature is not available for guest users.") ∧
  forget index requestInfo =
    Ret (text_result "Memory feature is not available for guest users.") ∧
  recall stringify uri requestInfo =
    Ret (json_contents (href uri)
           (stringify (JObj [("error", JStr "User not found")]))) ∧
  run locate (remember record requestInfo) w =
    (inl (text_result "Memory feature is not available for guest users."), w) ∧
  run locate (forget index requestInfo) w =
    (inl (text_result "Memory feature is not available for guest users."), w) ∧
  run locate (recall stringify uri requestInfo) w =
    (inl (json_contents (href uri)
            (stringify (JObj [("error", JStr "User not found")]))), w).
Proof.
  intros Hguest. unfold remember, forget, recall.
  destruct (getUser requestInfo) as [[|a u]|]; simpl in Hguest;
    try discriminate; repeat split.
Qed.

(** C5. Recall for a signed-in user whose key is absent (equally: whose
    read the store answers with null) is a normal result carrying the
    empty sequence, [JSON.stringify([])], under the requested URI; the
    single read is logged as done and the documents are untouched. *)
Theorem recall_absent_is_empty requestInfo user uri w :
  signed_in requestInfo user → quiet w →
  docs w !! getMemoryKey user = None ∨
  (exec locate (JsonGet (getMemoryKey user) Root) (docs w)).1 = None →
  run locate (recall stringify uri requestInfo) w =
    (inl (json_contents (href uri) (stringify (JArr []))),
     World (docs w) (tail (faults w))
           (trace w ++ [Done (JsonGet (getMemoryKey user) Root)]) (clock w)).
Proof.
  intros Hin Hq Habsent.
  assert (docs w !! getMemoryKey user = None) as Hdoc
    by (destruct Habsent as [H|H]; [done | by apply get_null_iff in H]).
  by rewrite (recall_quiet _ _ _ _ Hin Hq), Hdoc.
Qed.

(** C3. RemoveAt for a signed-in user whose key is absent, or whose list
    has no element at the index as the store reads it, answers the normal
    "No memory item found at index …" text, for every index (the index
    printed as its decimal numeral when it is a safe integer): the result
    is returned, not thrown, the one request is logged as done, and the
    documents are untouched. *)
Theorem forget_miss_is_not_found requestInfo user index w :
  signed_in requestInfo user → quiet w →
  docs w !! getMemoryKey user = None ∨
  (∃ items, docs w !! getMemoryKey user = Some (JArr items) ∧
            locate index (length items) = None) →
  ∃ rendered,
    renders index rendered ∧
    run locate (forget index requestInfo) w =
      (inl (text_result ("No memory item found at index " +:+ rendered +:+ ".")),
       World (docs w) (tail (faults w))
             (trace w ++ [Done (JsonArrPop (getMemoryKey user) Root index)])
             (clock w)).
Proof.
  intros Hin Hq Hmiss. exists (Number_toString index). split; [done|].
  rewrite (forget_quiet _ _ _ _ Hin Hq). simpl.
  destruct Hmiss as [-> | (items & -> & ->)]; done.
Qed.

(** C2. RemoveAt(i) on a present list of n text items with 0 ≤ i < n, the
    store removing the element at position i: the answer is the success
    text carrying the element that was at i; the stored list is the old
    one without that position, of length n-1, positions before i as they
    were and every later element one position down; and Recall then
    renders exactly that list. *)
Theorem forget_in_range_removes requestInfo user uri (items : list string) index w :
  signed_in requestInfo user → quiet w →
  docs w !! getMemoryKey user = Some (memory_list items) →
  0 ≤ index < Z.of_nat (length items) →
  locate index (length items) = Some (Z.to_nat index) →
  ∃ x w',
    items !! Z.to_nat index = Some x ∧
    run locate (forget index requestInfo) w =
      (inl (text_result
              ("Removed memory item at index " +:+ Number_toString index +:+
               " about: " +:+ x)), w') ∧
    docs w' !! getMemoryKey user =
      Some (memory_list (delete (Z.to_nat index) items)) ∧
    length (delete (Z.to_nat index) items) = (length items - 1)%nat ∧
    (∀ j, (j < Z.to_nat index)%nat →
          delete (Z.to_nat index) items !! j = items !! j) ∧
    (∀ j, (Z.to_nat index ≤ j)%nat →
          delete (Z.to_nat index) items !! j = items !! S j) ∧
    (run locate (recall stringify uri requestInfo) w').1 =
      inl (json_contents (href uri)
             (stringify (memory_list (delete (Z.to_nat index) items)))).
Proof.
  intros Hin Hq Hdoc Hrange Hloc.
  destruct (lookup_lt_is_Some_2 items (Z.to_nat index)) as [x Hx]; [lia|].
  eexists x, _. split; [done|]. split.
  { exact (forget_hit _ _ _ _ _ _ _ Hin Hq Hdoc Hloc Hx). }
  simpl. split; [|split; [|split; [|split]]].
  - by rewrite lookup_insert_eq.
  - apply length_delete. eauto.
  - intros j Hj. by apply list_lookup_delete_lt.
  - intros j Hj. by apply list_lookup_delete_ge.
  - rewrite (recall_quiet _ _ _ _ Hin); [|by apply quiet_tail]. simpl.
    by rewrite lookup_insert_eq.
Qed.

(** C1. Appending r1 … rn in order for a signed-in user whose key is
    absent, nothing failing and nothing else happening in between, and
    then recalling, renders exactly the list [r1, …, rn] in that order. *)
Theorem append_then_recall requestInfo user uri (records : list string) w :
  signed_in requestInfo user → quiet w →
  docs w !! getMemoryKey user = None →
  (run locate (recall stringify uri requestInfo)
       (remember_all locate requestInfo records w)).1 =
    inl (json_contents (href uri) (stringify (memory_list records))).
Proof.
  intros Hin Hq Hdoc. destruct records as [|r records]; simpl.
  - by rewrite (recall_quiet _ _ _ _ Hin Hq), Hdoc.
  - rewrite (remember_absent r _ _ _ Hin Hq Hdoc).
    match goal with |- context [remember_all _ _ _ ?w1] =>
      destruct (remember_all_present requestInfo user records [r] w1 Hin)
        as [Hq' Hdoc'] end.
    + apply (quiet_tail (World (docs w) (tail (faults w)) [] (clock w))).
      by apply quiet_tail.
    + simpl. by rewrite lookup_insert_eq.
    + by rewrite (recall_quiet _ _ _ _ Hin Hq'), Hdoc'.
Qed.


(** A request either throws the scheduled error or is executed. *)
Lemma perform_cases {A} (c : call A) (w : world) :
  (∃ msg rest,
     faults w = Some msg :: rest ∧
     perform locate c w =
       (inr {| message := msg |},
        World (docs w) rest (trace w ++ [Failedcall c msg]) (clock w))) ∨
  perform locate c w =
    (inl (exec locate c (docs w)).1,
     World (exec locate c (docs w)).2 (tail (faults w)) (trace w ++ [Done c])
           (clock w)).
Proof.
  unfold perform. destruct (faults w) as [|[msg|] rest]; simpl;
    destruct (exec locate c (docs w)); eauto.
Qed.

Ltac log_cases H :=
  repeat match type of H with
    | _ :: _ = _ :: _ => let E := fresh "E" in injection H as E H
    | [] = _ :: _ => discriminate H
    | _ = ?pre ++ _ => is_var pre; destruct pre; simpl in H
    end;
  repeat match goal with
    | E : Done _ = Failedcall _ _ |- _ => discriminate E
    | E : Failedcall _ _ = Failedcall _ _ |- _ =>
        injection E; clear E; intros; subst
    end;
  try (subst; split; reflexivity).

(** C7. Whatever the fault schedule, each of the three handlers returns a
    response and never lets an exception escape; and for every store
    request that failed while it ran, that request is the last one the
    handler sent (no retry, no further request) and the response is the
    textual error payload of the operation carrying the message of the
    failure (RemoveAt's text names the index, printed as its decimal
    numeral when it is a safe integer). *)
Theorem store_errors_become_payloads requestInfo record index uri w :
  (∃ resp w' log,
     run locate (remember record requestInfo) w = (inl resp, w') ∧
     trace w' = trace w ++ log ∧
     answered_with log resp
       (λ msg, text_result ("Error storing memory item: " +:+ msg))) ∧
  (∃ resp w' log rendered,
     run locate (forget index requestInfo) w = (inl resp, w') ∧
     trace w' = trace w ++ log ∧
     renders index rendered ∧
     answered_with log resp
       (λ msg, text_result
                 ("Error removing memory item " +:+ rendered +:+ ": " +:+ msg))) ∧
  (∃ resp w' log,
     run locate (recall stringify uri requestInfo) w = (inl resp, w') ∧
     trace w' = trace w ++ log ∧
     answered_with log resp
       (λ msg, json_contents "resource://memory.recall"
                 (stringify (JObj [("error", JStr msg)])))).
Proof.
  unfold remember, forget, recall, answered_with.
  destruct (getUser requestInfo) as [[|a u]|]; simpl.
  1, 3: (split; [|split]); eexists; exists w, (@nil logged);
        try exists (Number_toString index);
        (split; [reflexivity|]; split; [by rewrite app_nil_r|]);
        try (split; [done|]);
        intros [|??] *; discriminate.
  set (key := getMemoryKey (String a u)).
  split; [|split].
  - destruct (perform_cases (Exists key) w) as [(msg & rest & _ & ->) | ->]; simpl.
    { eexists _, _, [_]. split; [reflexivity|]. split; [reflexivity|].
      intros pre A c msg' post H. log_cases H. }
    destruct (docs w !! key) as [doc|] eqn:Hdoc; simpl.
    all: match goal with |- context [perform locate ?c ?w1] =>
      destruct (perform_cases c w1) as [(msg & rest & _ & ->) | ->] end; simpl.
    all: eexists _, _, [_; _]; (split; [reflexivity|]);
         (split; [by rewrite <- app_assoc|]).
    all: intros pre A c msg' post H; log_cases H.
  - destruct (perform_cases (JsonArrPop key Root index) w)
      as [(msg & rest & _ & ->) | ->].
    { simpl. eexists _, _, [_], (Number_toString index).
      split; [reflexivity|]. split; [reflexivity|]. split; [done|].
      intros pre A c msg' post H. log_cases H. }
    destruct (exec locate (JsonArrPop key Root index) (docs w)) as [[r|] d]; simpl.
    all: eexists _, _, [_], (Number_toString index);
         (split; [reflexivity|]); (split; [reflexivity|]); (split; [done|]).
    all: intros pre A c msg' post H; log_cases H.
  - destruct (perform_cases (JsonGet key Root) w) as [(msg & rest & _ & ->) | ->]; simpl.
    { eexists _, _, [_]. split; [reflexivity|]. split; [reflexivity|].
      intros pre A c msg' post H. log_cases H. }
    destruct (docs w !! key); simpl.
    all: eexists _, _, [_]; (split; [reflexivity|]); (split; [reflexivity|]).
    all: intros pre A c msg' post H; log_cases H.
Qed.


Ltac no_set :=
  let e := fresh "e" in
  let He := fresh "He" in
  intros e He;
  repeat (apply elem_of_cons in He as [-> | He]; [exact (λ H, H)|]);
  by apply elem_of_nil in He.

(** C10. Append for a signed-in user whose key already exists, under any
    fault schedule: no request it sends is a whole-document set; the
    documents of all other keys are as they were; and if the document is
    an array, it still is one and every element it had is where it was.
    When nothing fails the requests are the existence check and one
    array-append, and the array is the old one with the record at its
    tail. *)
Theorem append_existing_only_appends requestInfo user record doc w :
  signed_in requestInfo user →
  docs w !! getMemoryKey user = Some doc →
  ∃ resp w' log,
    run locate (remember record requestInfo) w = (inl resp, w') ∧
    trace w' = trace w ++ log ∧
    (∀ e, e ∈ log → ¬ is_set e) ∧
    (∀ key, key ≠ getMemoryKey user → docs w' !! key = docs w !! key) ∧
    (∀ items, doc = JArr items →
       ∃ items',
         docs w' !! getMemoryKey user = Some (JArr items') ∧
         (∀ j x, items !! j = Some x → items' !! j = Some x) ∧
         (quiet w →
            items' = items ++ [JStr record] ∧
            log = [Done (Exists (getMemoryKey user));
                   Done (JsonArrAppend (getMemoryKey user) Root (JStr record))])).
Proof using locate.
  intros Hin Hdoc. enter Hin.
  set (key := getMemoryKey (String a u)) in *.
  destruct (perform_cases (Exists key) w) as [(msg & rest & Hf & ->) | ->]; simpl.
  { eexists _, _, [_]. split; [reflexivity|]. split; [reflexivity|].
    split; [no_set|]. split; [done|].
    intros items ->. exists items. split; [done|]. split; [done|].
    intros Hq. by destruct (quiet_no_fault _ _ _ Hq Hf). }
  rewrite Hdoc. simpl.
  match goal with |- context [perform locate ?c ?w1] =>
    destruct (perform_cases c w1) as [(msg & rest & Hf & ->) | ->] end; simpl.
  { eexists _, _, [_; _]. split; [reflexivity|].
    split; [by rewrite <- app_assoc|].
    split; [no_set|]. split; [done|].
    intros items ->. exists items. split; [done|]. split; [done|].
    intros Hq. simpl in Hf.
    destruct (quiet_no_fault (World (docs w) (tail (faults w)) [] (clock w))
                msg rest); [by apply quiet_tail | done]. }
  rewrite Hdoc.
  eexists _, _, [_; _]. split; [reflexivity|].
  split; [by rewrite <- app_assoc|].
  split; [no_set|]. split.
  { intros k Hk. destruct doc; simpl; try done. by rewrite lookup_insert_ne. }
  intros items ->. simpl. exists (items ++ [JStr record]).
  split; [by rewrite lookup_insert_eq|].
  split; [by intros j x Hj; apply lookup_app_l_Some|]. done.
Qed.


(** ** Invariants of the store *)

(** No request removes a key. *)
Lemma exec_keeps_keys {A} (c : call A) (d : gmap string json) key :
  is_Some (d !! key) → is_Some ((exec locate c d).2 !! key).
Proof.
  intros Hkey.
  destruct c as [k | k [] | k [] v | k [] v | k [] i]; simpl; try done.
  - rewrite lookup_insert. by case_decide.
  - destruct (d !! k) as [[]|]; simpl; try done.
    rewrite lookup_insert. by case_decide.
  - destruct (d !! k) as [[| | | |items|]|]; simpl; try done.
    destruct (locate i (length items)) as [pos|]; simpl; try done.
    destruct (items !! pos); simpl; try done.
    rewrite lookup_insert. by case_decide.
Qed.

(** Requests that write text keep every document a list of text items. *)
Lemma exec_all_lists {A} (c : call A) (d : gmap string json) :
  writes_text c → all_lists d → all_lists (exec locate c d).2.
Proof.
  intros Hc Hd.
  destruct c as [k | k [] | k [] v | k [] v | k [] i]; simpl in *; try done.
  - destruct Hc as [items ->]. intros key doc. rewrite lookup_insert.
    case_decide; [intros [= <-]; eauto | apply Hd].
  - destruct Hc as [item ->].
    destruct (d !! k) as [doc|] eqn:Hk; simpl; [|done].
    destruct (Hd _ _ Hk) as [items ->]. simpl.
    intros key doc. rewrite lookup_insert.
    case_decide; [intros [= <-] | apply Hd].
    exists (items ++ [item]). unfold memory_list. by rewrite fmap_app.
  - destruct (d !! k) as [doc|] eqn:Hk; simpl; [|done].
    destruct (Hd _ _ Hk) as [items ->]. simpl.
    destruct (locate i (length (JStr <$> items))) as [pos|]; simpl; [|done].
    destruct ((JStr <$> items) !! pos); simpl; [|done].
    intros key doc. rewrite lookup_insert.
    case_decide; [intros [= <-] | apply Hd].
    exists (delete pos items). unfold memory_list. by rewrite delete_memory_list.
Qed.

Lemma perform_docs {A} (c : call A) (w : world) :
  docs (perform locate c w).2 = docs w ∨
  docs (perform locate c w).2 = (exec locate c (docs w)).2.
Proof.
  destruct (perform_cases c w) as [(msg & rest & _ & ->) | ->]; simpl; auto.
Qed.

Lemma step_keeps_keys {R} (p : prog R) (w : world) key :
  is_Some (docs w !! key) → is_Some (docs (step locate p w).2 !! key).
Proof.
  intros Hkey. destruct p as [r|e|A c k|k]; simpl; try done.
  destruct (perform_docs c w) as [E|E];
    destruct (perform locate c w) as [o w']; simpl in *; rewrite E;
    [done | by apply exec_keeps_keys].
Qed.

Lemma run_keeps_keys {R} (p : prog R) (w : world) key :
  is_Some (docs w !! key) → is_Some (docs (run locate p w).2 !! key).
Proof.
  revert w. induction p as [r|e|A c k IH|k IH]; intros w Hkey; simpl; try done.
  - pose proof (step_keeps_keys (Call c k) w key Hkey) as Hstep. simpl in Hstep.
    destruct (perform locate c w) as [o w']. by apply IH.
  - by apply IH.
Qed.

Lemma step_tame {R} (p : prog R) (w : world) :
  tame p → tame (step locate p w).1.
Proof.
  destruct p as [r|e|A c k|k]; simpl; try done.
  intros [_ Hk]. destruct (perform locate c w) as [o w']. apply Hk.
Qed.

Lemma step_all_lists {R} (p : prog R) (w : world) :
  tame p → all_lists (docs w) → all_lists (docs (step locate p w).2).
Proof.
  destruct p as [r|e|A c k|k]; simpl; try done.
  intros [Hc _] Hd.
  destruct (perform_docs c w) as [E|E];
    destruct (perform locate c w) as [o w']; simpl in *; rewrite E;
    [done | by apply exec_all_lists].
Qed.

End Facts.

Ltac tame_tac :=
  repeat (simpl;
          match goal with
          | |- True => exact I
          | |- _ ∧ _ => split
          | |- ∃ items, JArr [JStr ?r] = memory_list items => by exists [r]
          | |- ∃ item, JStr ?r = JStr item => by exists r
          | |- ∀ _ : _ + _, _ => intros [?|?]
          | |- ∀ _, _ => intros ?
          | |- context [if ?b then _ else _] => destruct b
          | |- context [match ?x with Some _ => _ | None => _ end] => destruct x
          end).

Lemma in_flight_tame stringify {R} (p : prog R) :
  in_flight stringify p → tame p.
Proof.
  induction 1 as [record requestInfo | index requestInfo | uri requestInfo
                 | R p locate w _ IH].
  - unfold remember. destruct (getUser requestInfo) as [[|a u]|]; tame_tac.
  - unfold forget. destruct (getUser requestInfo) as [[|a u]|]; tame_tac.
  - unfold recall. destruct (getUser requestInfo) as [[|a u]|]; tame_tac.
  - by apply step_tame.
Qed.

(** Serving a request from start to end is a run of steps. *)
Lemma run_reachable locate stringify {R} (p : prog R) (w : world) :
  reachable locate stringify w → in_flight stringify p →
  reachable locate stringify (run locate p w).2.
Proof.
  revert w. induction p as [r|e|A c k IH|k IH]; intros w Hw Hp; simpl; try done.
  - pose proof (reach_step _ _ _ _ Hw Hp) as Hw'.
    pose proof (resumed _ _ locate w Hp) as Hp'. simpl in Hw', Hp'.
    destruct (perform locate c w) as [o w']. by apply IH.
  - pose proof (resumed _ _ locate w Hp) as Hp'. by apply IH.
Qed.

Lemma reachable_all_lists locate stringify (w : world) :
  reachable locate stringify w → all_lists (docs w).
Proof.
  induction 1 as [schedule time | R p w _ IH Hp | w time _ IH]; simpl.
  - intros key doc. by rewrite lookup_empty.
  - apply step_all_lists; [by eapply in_flight_tame | done].
  - done.
Qed.

Lemma count_both (sched : list bool) :
  (count_occ bool_dec sched true + count_occ bool_dec sched false)%nat =
  length sched.
Proof.
  induction sched as [|[] sched IH]; simpl; [done | | ]; lia.
Qed.

Section Lifecycle.

Variable locate : Z → nat → option nat.
Variable stringify : json → string.

Ltac crank Hdoc :=
  repeat (simpl;
          first [ rewrite perform_quiet by quiet_tac
                | rewrite Hdoc
                | rewrite lookup_insert_eq ]);
  simpl.

(** C8. The two states of a MemoryList and its transitions.  In every
    reachable world each stored document is a JSON array (of text items).
    No step and no run of any program over the store's requests, so of no
    handler, makes a present key absent.  Append takes an absent key to the
    one-element list of its record and a present list to the list with the
    record at its tail; RemoveAt of the only element leaves the key
    present, holding the empty array. *)
Theorem memory_list_state_machine :
  (∀ w, reachable locate stringify w →
        ∀ key doc, docs w !! key = Some doc → ∃ items, doc = memory_list items) ∧
  (∀ R (p : prog R) w key,
     is_Some (docs w !! key) →
     is_Some (docs (step locate p w).2 !! key) ∧
     is_Some (docs (run locate p w).2 !! key)) ∧
  (∀ requestInfo user record w,
     signed_in requestInfo user → quiet w →
     docs w !! getMemoryKey user = None →
     docs (run locate (remember record requestInfo) w).2 !! getMemoryKey user =
       Some (memory_list [record])) ∧
  (∀ requestInfo user record items w,
     signed_in requestInfo user → quiet w →
     docs w !! getMemoryKey user = Some (memory_list items) →
     docs (run locate (remember record requestInfo) w).2 !! getMemoryKey user =
       Some (memory_list (items ++ [record]))) ∧
  (∀ requestInfo user index item w,
     signed_in requestInfo user → quiet w →
     docs w !! getMemoryKey user = Some (memory_list [item]) →
     locate index 1%nat = Some 0%nat →
     docs (run locate (forget index requestInfo) w).2 !! getMemoryKey user =
       Some (memory_list [])).
Proof.
  split; [|split; [|split; [|split]]].
  - intros w Hw key doc. apply (reachable_all_lists _ _ _ Hw).
  - intros R p w key Hkey. split;
      [by apply step_keeps_keys | by apply run_keeps_keys].
  - intros requestInfo user record w Hin Hq Hdoc.
    rewrite (remember_absent _ _ _ _ _ Hin Hq Hdoc). simpl.
    by rewrite lookup_insert_eq.
  - intros requestInfo user record items w Hin Hq Hdoc.
    rewrite (remember_present _ _ _ _ _ _ Hin Hq Hdoc). simpl.
    rewrite lookup_insert_eq. unfold memory_list. by rewrite fmap_app.
  - intros requestInfo user index item w Hin Hq Hdoc Hloc.
    rewrite (forget_hit locate index _ _ [item] 0%nat item w Hin Hq Hdoc Hloc eq_refl).
    simpl. by rewrite lookup_insert_eq.
Qed.

(** C4. Two Appends in flight for the same user on an absent key, nothing
    failing: when both existence checks are answered before either
    invocation writes, in either order, and the invocations then take
    their remaining steps in any order, both send the initialising
    whole-document set, both answer "Stored memory about: …", and the key
    ends up holding the one-element list of the record that was written
    second; Recall renders that list, and the other record is gone. *)
Theorem concurrent_first_appends_lose_one
    requestA requestB user recordA recordB uri (first : bool) (rest : list bool) w :
  signed_in requestA user → signed_in requestB user → quiet w →
  docs w !! getMemoryKey user = None →
  takes true 2 rest → takes false 2 rest →
  let earlier := if hd true rest then recordA else recordB in
  let later := if hd true rest then recordB else recordA in
  ∃ w',
    interleave locate (first :: negb first :: rest)
      (remember recordA requestA) (remember recordB requestB) w =
      (Ret (text_result
              ("Stored memory about: " +:+ recordA +:+ " on " +:+ clock w +:+ " UTC")),
       Ret (text_result
              ("Stored memory about: " +:+ recordB +:+ " on " +:+ clock w +:+ " UTC")),
       w') ∧
    trace w' =
      trace w ++
      [Done (Exists (getMemoryKey user));
       Done (Exists (getMemoryKey user));
       Done (JsonSet (getMemoryKey user) Root (JArr [JStr earlier]));
       Done (JsonSet (getMemoryKey user) Root (JArr [JStr later]))] ∧
    docs w' !! getMemoryKey user = Some (memory_list [later]) ∧
    (run locate (recall stringify uri requestA) w').1 =
      inl (json_contents (href uri) (stringify (memory_list [later]))).
Proof.
  intros HinA HinB Hq Hdoc HA HB earlier later.
  pose proof (count_both rest) as Hlen. unfold takes in *.
  rewrite HA, HB in Hlen.
  destruct rest as [|b1 [|b2 [|b3 [|b4 [|b5 rest]]]]]; try discriminate.
  pose proof HinA as HinA'.
  apply signed_in_inv in HinA' as (a & u & -> & HuA).
  destruct HinB as [HuB _].
  unfold remember. rewrite HuA, HuB.
  set (key := getMemoryKey (String a u)) in *.
  destruct first, b1, b2, b3, b4; try discriminate; subst earlier later.
  all: eexists; split; [crank Hdoc; reflexivity|].
  all: simpl; split; [by rewrite <- !app_assoc|].
  all: split; [by rewrite lookup_insert_eq|].
  all: rewrite (recall_quiet locate stringify uri _ _ _ HinA) by quiet_tac.
  all: simpl; by rewrite lookup_insert_eq.
Qed.

End Lifecycle.


(** * The scenario of the spec, run *)

Lemma calm_nil : calm [].
Proof. intros msg H. by apply elem_of_nil in H. Qed.

Lemma alice_signed_in : signed_in alice "alice@example.com".
Proof. split; [reflexivity | discriminate]. Qed.

Example scenario_append_append_recall :
  (run locate_spec (recall JSON_stringify recall_uri alice)
     (remember_all locate_spec alice ["likes tea"; "works at Acme"] fresh)).1 =
  inl (json_contents "resource://memory.recall"
         ("[" +:+ quote "likes tea" +:+ "," +:+ quote "works at Acme" +:+ "]")).
Proof. vm_compute. reflexivity. Qed.

Example scenario_forget_0 :
  run locate_spec (forget 0 alice) two_memories =
  (inl (text_result "Removed memory item at index 0 about: likes tea"),
   World {[ "memory:alice@example.com" := memory_list ["works at Acme"] ]} [] 
         [Done (JsonArrPop "memory:alice@example.com" Root 0)]
         "2025-06-01T12:00:00.000Z").
Proof. vm_compute. reflexivity. Qed.

Example scenario_forget_5 :
  run locate_spec (forget 5 alice) two_memories =
  (inl (text_result "No memory item found at index 5."),
   World (docs two_memories) []
         [Done (JsonArrPop "memory:alice@example.com" Root 5)]
         "2025-06-01T12:00:00.000Z").
Proof. vm_compute. reflexivity. Qed.

Example scenario_store_error :
  run locate_spec (remember "likes tea" alice) flaky =
  (inl (text_result "Error storing memory item: fetch failed"),
   World ∅ []
         [Done (Exists "memory:alice@example.com");
          Failedcall (JsonSet "memory:alice@example.com" Root (JArr [JStr "likes tea"]))
                     "fetch failed"]
         "2025-06-01T12:00:00.000Z").
Proof. vm_compute. reflexivity. Qed.

(** * The claims at concrete inputs *)

Lemma append_then_recall_witness :
  signed_in alice "alice@example.com" ∧ quiet fresh ∧
  docs fresh !! getMemoryKey "alice@example.com" = None ∧
  (run locate_spec (recall JSON_stringify recall_uri alice)
     (remember_all locate_spec alice ["likes tea"; "works at Acme"] fresh)).1 =
  inl (json_contents (href recall_uri)
         (JSON_stringify (memory_list ["likes tea"; "works at Acme"]))).
Proof.
  split; [exact alice_signed_in|]. split; [exact calm_nil|].
  split; [reflexivity|].
  apply (append_then_recall locate_spec JSON_stringify alice "alice@example.com"
           recall_uri ["likes tea"; "works at Acme"] fresh);
    [exact alice_signed_in | exact calm_nil | reflexivity].
Defined.

Lemma forget_in_range_removes_witness :
  signed_in alice "alice@example.com" ∧ quiet two_memories ∧
  docs two_memories !! getMemoryKey "alice@example.com" =
    Some (memory_list ["likes tea"; "works at Acme"]) ∧
  0 ≤ 0 < Z.of_nat (length ["likes tea"; "works at Acme"]) ∧
  locate_spec 0 (length ["likes tea"; "works at Acme"]) = Some (Z.to_nat 0) ∧
  ∃ x w',
    ["likes tea"; "works at Acme"] !! Z.to_nat 0 = Some x ∧
    run locate_spec (forget 0 alice) two_memories =
      (inl (text_result
              ("Removed memory item at index " +:+ Number_toString 0 +:+ " about: " +:+ x)),
       w') ∧
    docs w' !! getMemoryKey "alice@example.com" =
      Some (memory_list (delete (Z.to_nat 0) ["likes tea"; "works at Acme"])) ∧
    length (delete (Z.to_nat 0) ["likes tea"; "works at Acme"]) =
      (length ["likes tea"; "works at Acme"] - 1)%nat ∧
    (∀ j, (j < Z.to_nat 0)%nat →
          delete (Z.to_nat 0) ["likes tea"; "works at Acme"] !! j =
          ["likes tea"; "works at Acme"] !! j) ∧
    (∀ j, (Z.to_nat 0 ≤ j)%nat →
          delete (Z.to_nat 0) ["likes tea"; "works at Acme"] !! j =
          ["likes tea"; "works at Acme"] !! S j) ∧
    (run locate_spec (recall JSON_stringify recall_uri alice) w').1 =
      inl (json_contents (href recall_uri)
             (JSON_stringify
                (memory_list (delete (Z.to_nat 0) ["likes tea"; "works at Acme"])))).
Proof.
  split; [exact alice_signed_in|]. split; [exact calm_nil|].
  split; [reflexivity|]. split; [simpl; lia|]. split; [reflexivity|].
  apply (forget_in_range_removes locate_spec JSON_stringify alice
           "alice@example.com" recall_uri ["likes tea"; "works at Acme"] 0
           two_memories);
    [exact alice_signed_in | exact calm_nil | reflexivity | simpl; lia
    | reflexivity].
Defined.

Lemma forget_miss_is_not_found_witness :
  signed_in alice "alice@example.com" ∧ quiet two_memories ∧
  (docs two_memories !! getMemoryKey "alice@example.com" = None ∨
   ∃ items, docs two_memories !! getMemoryKey "alice@example.com" = Some (JArr items) ∧
            locate_spec 5 (length items) = None) ∧
  run locate_spec (forget 5 alice) two_memories =
    (inl (text_result ("No memory item found at index " +:+ Number_toString 5 +:+ ".")),
     World (docs two_memories) (tail (faults two_memories))
           (trace two_memories ++
            [Done (JsonArrPop (getMemoryKey "alice@example.com") Root 5)])
           (clock two_memories)).
Proof.
  assert (docs two_memories !! getMemoryKey "alice@example.com" = None ∨
          ∃ items, docs two_memories !! getMemoryKey "alice@example.com" =
                     Some (JArr items) ∧
                   locate_spec 5 (length items) = None) as Hmiss.
  { right. exists [JStr "likes tea"; JStr "works at Acme"].
    split; reflexivity. }
  split; [exact alice_signed_in|]. split; [exact calm_nil|].
  split; [exact Hmiss|].
  destruct (forget_miss_is_not_found locate_spec alice "alice@example.com" 5
              two_memories alice_signed_in calm_nil Hmiss)
    as (rendered & Hrendered & Hrun).
  rewrite Hrun, Hrendered; [reflexivity|].
  unfold safe_integer. lia.
Defined.

Lemma recall_absent_is_empty_witness :
  signed_in alice "alice@example.com" ∧ quiet fresh ∧
  (docs fresh !! getMemoryKey "alice@example.com" = None ∨
   (exec locate_spec (JsonGet (getMemoryKey "alice@example.com") Root)
      (docs fresh)).1 = None) ∧
  run locate_spec (recall JSON_stringify recall_uri alice) fresh =
    (inl (json_contents (href recall_uri) (JSON_stringify (JArr []))),
     World (docs fresh) (tail (faults fresh))
           (trace fresh ++ [Done (JsonGet (getMemoryKey "alice@example.com") Root)])
           (clock fresh)).
Proof.
  split; [exact alice_signed_in|]. split; [exact calm_nil|].
  split; [left; reflexivity|].
  apply (recall_absent_is_empty locate_spec JSON_stringify alice
           "alice@example.com" recall_uri fresh);
    [exact alice_signed_in | exact calm_nil | left; reflexivity].
Defined.

Lemma guest_gets_fixed_response_witness :
  not_user (getUser guest) = true ∧
  run locate_spec (remember "likes tea" guest) two_memories =
    (inl (text_result "Memory feature is not available for guest users."),
     two_memories) ∧
  run locate_spec (forget 0 guest) two_memories =
    (inl (text_result "Memory feature is not available for guest users."),
     two_memories) ∧
  run locate_spec (recall JSON_stringify recall_uri guest) two_memories =
    (inl (json_contents (href recall_uri)
            (JSON_stringify (JObj [("error", JStr "User not found")]))),
     two_memories).
Proof.
  split; [reflexivity|].
  apply (guest_gets_fixed_response locate_spec JSON_stringify guest "likes tea" 0
           recall_uri two_memories).
  reflexivity.
Defined.

Lemma store_errors_become_payloads_witness :
  (run locate_spec (remember "likes tea" alice) flaky).1 =
  inl (text_result "Error storing memory item: fetch failed").
Proof.
  destruct (store_errors_become_payloads locate_spec JSON_stringify alice
              "likes tea" 0 recall_uri flaky)
    as [(resp & w' & log & Hrun & Htrace & Hanswer) _].
  rewrite Hrun. simpl. f_equal.
  assert (w' = (run locate_spec (remember "likes tea" alice) flaky).2) as ->
    by (by rewrite Hrun).
  vm_compute in Htrace. subst log.
  exact (proj2 (Hanswer [Done (Exists "memory:alice@example.com")] _
                  (JsonSet "memory:alice@example.com" Root (JArr [JStr "likes tea"]))
                  "fetch failed" [] eq_refl)).
Defined.

Lemma append_existing_only_appends_witness :
  signed_in alice "alice@example.com" ∧
  docs two_memories !! getMemoryKey "alice@example.com" =
    Some (memory_list ["likes tea"; "works at Acme"]) ∧
  ∃ resp w' log,
    run locate_spec (remember "has a cat" alice) two_memories = (inl resp, w') ∧
    trace w' = trace two_memories ++ log ∧
    (∀ e, e ∈ log → ¬ is_set e) ∧
    (∀ key, key ≠ getMemoryKey "alice@example.com" →
            docs w' !! key = docs two_memories !! key) ∧
    (∀ items, memory_list ["likes tea"; "works at Acme"] = JArr items →
       ∃ items',
         docs w' !! getMemoryKey "alice@example.com" = Some (JArr items') ∧
         (∀ j x, items !! j = Some x → items' !! j = Some x) ∧
         (quiet two_memories →
            items' = items ++ [JStr "has a cat"] ∧
            log = [Done (Exists (getMemoryKey "alice@example.com"));
                   Done (JsonArrAppend (getMemoryKey "alice@example.com") Root
                           (JStr "has a cat"))])).
Proof.
  split; [exact alice_signed_in|]. split; [reflexivity|].
  apply (append_existing_only_appends locate_spec alice "alice@example.com"
           "has a cat" (memory_list ["likes tea"; "works at Acme"]) two_memories);
    [exact alice_signed_in | reflexivity].
Defined.

Lemma memory_list_state_machine_witness :
  signed_in alice "alice@example.com" ∧ quiet fresh ∧
  docs fresh !! getMemoryKey "alice@example.com" = None ∧
  docs (run locate_spec (remember "likes tea" alice) fresh).2
    !! getMemoryKey "alice@example.com" = Some (memory_list ["likes tea"]).
Proof.
  split; [exact alice_signed_in|]. split; [exact calm_nil|].
  split; [reflexivity|].
  apply (proj1 (proj2 (proj2 (memory_list_state_machine locate_spec JSON_stringify)))
           alice "alice@example.com" "likes tea" fresh);
    [exact alice_signed_in | exact calm_nil | reflexivity].
Defined.

Lemma concurrent_first_appends_lose_one_witness :
  signed_in alice "alice@example.com" ∧ quiet fresh ∧
  docs fresh !! getMemoryKey "alice@example.com" = None ∧
  takes true 2 [true; true; false; false] ∧
  takes false 2 [true; true; false; false] ∧
  ∃ w',
    interleave locate_spec [true; false; true; true; false; false]
      (remember "likes tea" alice) (remember "works at Acme" alice) fresh =
      (Ret (text_result
              ("Stored memory about: " +:+ "likes tea" +:+ " on " +:+
               clock fresh +:+ " UTC")),
       Ret (text_result
              ("Stored memory about: " +:+ "works at Acme" +:+ " on " +:+
               clock fresh +:+ " UTC")),
       w') ∧
    trace w' =
      trace fresh ++
      [Done (Exists (getMemoryKey "alice@example.com"));
       Done (Exists (getMemoryKey "alice@example.com"));
       Done (JsonSet (getMemoryKey "alice@example.com") Root (JArr [JStr "likes tea"]));
       Done (JsonSet (getMemoryKey "alice@example.com") Root
               (JArr [JStr "works at Acme"]))] ∧
    docs w' !! getMemoryKey "alice@example.com" =
      Some (memory_list ["works at Acme"]) ∧
    (run locate_spec (recall JSON_stringify recall_uri alice) w').1 =
      inl (json_contents (href recall_uri)
             (JSON_stringify (memory_list ["works at Acme"]))).
Proof.
  split; [exact alice_signed_in|]. split; [exact calm_nil|].
  split; [reflexivity|]. split; [reflexivity|]. split; [reflexivity|].
  apply (concurrent_first_appends_lose_one locate_spec JSON_stringify alice alice
           "alice@example.com" "likes tea" "works at Acme" recall_uri true
           [true; true; false; false] fresh);
    [exact alice_signed_in | exact alice_signed_in | exact calm_nil
    | reflexivity | reflexivity | reflexivity].
Defined.

(** * Further properties of the handlers *)

Section Further.

Variable locate : Z → nat → option nat.
Variable stringify : json → string.

Lemma perform_faults {A} (c : call A) (w : world) :
  faults (perform locate c w).2 = tail (faults w).
Proof.
  unfold perform. destruct (faults w) as [|[msg|] rest]; simpl;
    by destruct (exec locate c (docs w)).
Qed.

(** Nothing scheduled to fail before, nothing after. *)
Lemma run_quiet {R} (p : prog R) (w : world) :
  quiet w → quiet (run locate p w).2.
Proof.
  revert w. induction p as [r|e|A c k IH|k IH]; intros w Hq; simpl; try done.
  - pose proof (perform_faults c w) as Hf.
    destruct (perform locate c w) as [o w']. apply IH.
    unfold quiet. simpl in Hf. rewrite Hf. by apply calm_tail.
  - by apply IH.
Qed.

Lemma exec_other_key {A} (c : call A) (d : gmap string json) key :
  key ≠ call_key c → (exec locate c d).2 !! key = d !! key.
Proof.
  intros Hkey.
  destruct c as [k | k [] | k [] v | k [] v | k [] i]; simpl in *; try done.
  - by rewrite lookup_insert_ne.
  - destruct (d !! k) as [[]|]; simpl; try done. by rewrite lookup_insert_ne.
  - destruct (d !! k) as [[| | | |items|]|]; simpl; try done.
    destruct (locate i (length items)) as [pos|]; simpl; try done.
    destruct (items !! pos); simpl; try done. by rewrite lookup_insert_ne.
Qed.

Lemma run_confined {R} (p : prog R) (w : world) own key :
  confined own p → key ≠ own → docs (run locate p w).2 !! key = docs w !! key.
Proof.
  revert w. induction p as [r|e|A c k IH|k IH]; intros w Hp Hkey; simpl; try done.
  - destruct Hp as [Hc Hk].
    pose proof (perform_docs locate c w) as Hd.
    destruct (perform locate c w) as [o w']. rewrite IH by done.
    simpl in Hd. destruct Hd as [-> | ->]; [done|].
    apply exec_other_key. by rewrite Hc.
  - by apply IH.
Qed.

Lemma run_reads_only {R} (p : prog R) (w : world) :
  reads_only p → docs (run locate p w).2 = docs w.
Proof.
  revert w. induction p as [r|e|A c k IH|k IH]; intros w Hp; simpl; try done.
  - destruct Hp as [Hc Hk].
    pose proof (perform_docs locate c w) as Hd.
    destruct (perform locate c w) as [o w']. rewrite IH by done.
    simpl in Hd. destruct Hd as [-> | ->]; [done|].
    by destruct c as [k' | k' [] | k' [] v | k' [] v | k' [] i].
  - by apply IH.
Qed.

Ltac walk :=
  repeat (simpl;
          match goal with
          | |- True => exact I
          | |- _ ∧ _ => split
          | |- _ = _ => reflexivity
          | |- ∀ _ : _ + _, _ => intros [?|?]
          | |- ∀ _, _ => intros ?
          | |- context [if ?b then _ else _] => destruct b
          | |- context [match ?x with Some _ => _ | None => _ end] => destruct x
          end).

Lemma remember_confined record requestInfo user :
  getUser requestInfo = Some user →
  confined (getMemoryKey user) (remember record requestInfo).
Proof. intros Hu. unfold remember. rewrite Hu. destruct user; walk. Qed.

Lemma forget_confined index requestInfo user :
  getUser requestInfo = Some user →
  confined (getMemoryKey user) (forget index requestInfo).
Proof. intros Hu. unfold forget. rewrite Hu. destruct user; walk. Qed.

Lemma recall_confined uri requestInfo user :
  getUser requestInfo = Some user →
  confined (getMemoryKey user) (recall stringify uri requestInfo).
Proof. intros Hu. unfold recall. rewrite Hu. destruct user; walk. Qed.

Lemma getMemoryKey_inj user other :
  getMemoryKey user = getMemoryKey other → user = other.
Proof. unfold getMemoryKey. simpl. intros [= E]. exact E. Qed.

(** A request leaves the list of every user it does not come from alone. *)
Lemma serve_other_user (r : request) other w :
  getUser (sender r) ≠ Some other →
  docs (serve locate stringify r w) !! getMemoryKey other =
  docs w !! getMemoryKey other.
Proof.
  intros Hother.
  assert (∀ R (p : prog R),
            (∀ user, getUser (sender r) = Some user →
                     confined (getMemoryKey user) p) →
            (getUser (sender r) = None → docs (run locate p w).2 = docs w) →
            docs (run locate p w).2 !! getMemoryKey other =
            docs w !! getMemoryKey other) as Hgen.
  { intros R p Hsome Hnone.
    destruct (getUser (sender r)) as [user|] eqn:Hu.
    - apply (run_confined _ _ (getMemoryKey user)); [by apply Hsome|].
      intros E. apply getMemoryKey_inj in E. congruence.
    - by rewrite Hnone. }
  destruct r as [record req | index req | uri req]; simpl in *; apply Hgen.
  - intros user Hu. by apply remember_confined.
  - intros Hu. unfold remember. by rewrite Hu.
  - intros user Hu. by apply forget_confined.
  - intros Hu. unfold forget. by rewrite Hu.
  - intros user Hu. by apply recall_confined.
  - intros Hu. unfold recall. by rewrite Hu.
Qed.


Ltac sign H :=
  let a := fresh "a" in
  let u := fresh "u" in
  let Hu := fresh "Hu" in
  apply signed_in_inv in H as (a & u & -> & Hu);
  unfold remember, forget, recall; rewrite Hu; simpl.

(** X1. Two different identities never share a storage key. *)
Theorem memory_keys_are_distinct user other :
  user ≠ other → getMemoryKey user ≠ getMemoryKey other.
Proof. intros Hne E. by apply Hne, getMemoryKey_inj. Qed.

(** X2. Whatever they are asked and whatever fails, the three handlers
    leave the list of every user other than the caller exactly as it was
    (a guest's call leaves every list as it was). *)
Theorem handlers_leave_other_users_alone requestInfo other record index uri w :
  getUser requestInfo ≠ Some other →
  docs (run locate (remember record requestInfo) w).2 !! getMemoryKey other =
    docs w !! getMemoryKey other ∧
  docs (run locate (forget index requestInfo) w).2 !! getMemoryKey other =
    docs w !! getMemoryKey other ∧
  docs (run locate (recall stringify uri requestInfo) w).2 !! getMemoryKey other =
    docs w !! getMemoryKey other.
Proof.
  intros Hother. split; [|split].
  - exact (serve_other_user (Remember record requestInfo) other w Hother).
  - exact (serve_other_user (Forget index requestInfo) other w Hother).
  - exact (serve_other_user (Recall uri requestInfo) other w Hother).
Qed.

(** X3. Recall never changes a document, whatever fails; and when nothing
    fails, recalling twice in a row gives the same response twice. *)
Theorem recall_is_read_only uri requestInfo w :
  docs (run locate (recall stringify uri requestInfo) w).2 = docs w ∧
  (quiet w →
   (run locate (recall stringify uri requestInfo)
      (run locate (recall stringify uri requestInfo) w).2).1 =
   (run locate (recall stringify uri requestInfo) w).1).
Proof.
  assert (docs (run locate (recall stringify uri requestInfo) w).2 = docs w) as Hdocs.
  { apply run_reads_only. unfold recall.
    destruct (getUser requestInfo) as [[|a u]|]; walk. }
  split; [done|]. intros Hq.
  destruct (getUser requestInfo) as [[|a u]|] eqn:Hu.
  1, 3: by unfold recall; rewrite Hu.
  assert (signed_in requestInfo (String a u)) as Hin by done.
  rewrite (recall_quiet locate stringify uri _ _ _ Hin (run_quiet _ _ Hq)).
  rewrite Hdocs. by rewrite (recall_quiet locate stringify uri _ _ _ Hin Hq).
Qed.

(** X4. RemoveAt on a list of text items does one of three things, for
    every index and every index rule of the store, and the fault schedule
    and the store decide which.  If the request is scheduled to fail, the
    handler answers with the error text and that failed request is all it
    sent.  If the request goes through and the store finds an element at
    the index, exactly that element is removed and the answer carries its
    text.  If it goes through and the store finds none, the answer is "No
    memory item found" and the documents are as they were.  (The index is
    printed as its decimal numeral when it is a safe integer.) *)
Theorem forget_removes_one_or_none requestInfo user (items : list string) index w :
  signed_in requestInfo user →
  docs w !! getMemoryKey user = Some (memory_list items) →
  ∃ rendered,
    renders index rendered ∧
    (∀ msg rest,
       faults w = Some msg :: rest →
       ∃ w',
         run locate (forget index requestInfo) w =
           (inl (text_result
                   ("Error removing memory item " +:+ rendered +:+ ": " +:+ msg)),
            w') ∧
         trace w' =
           trace w ++ [Failedcall (JsonArrPop (getMemoryKey user) Root index) msg]) ∧
    (∀ pos x,
       goes_through w →
       locate index (length items) = Some pos → items !! pos = Some x →
       ∃ w',
         run locate (forget index requestInfo) w =
           (inl (text_result
                   ("Removed memory item at index " +:+ rendered +:+
                    " about: " +:+ x)), w') ∧
         trace w' = trace w ++ [Done (JsonArrPop (getMemoryKey user) Root index)] ∧
         docs w' = <[getMemoryKey user := memory_list (delete pos items)]> (docs w)) ∧
    (goes_through w →
     locate index (length items) = None ∨
     (∃ pos, locate index (length items) = Some pos ∧ items !! pos = None) →
     ∃ w',
       run locate (forget index requestInfo) w =
         (inl (text_result ("No memory item found at index " +:+ rendered +:+ ".")),
          w') ∧
       trace w' = trace w ++ [Done (JsonArrPop (getMemoryKey user) Root index)] ∧
       docs w' = docs w).
Proof.
  intros Hin Hdoc. exists (Number_toString index). split; [done|].
  sign Hin. set (key := getMemoryKey (String a u)) in *.
  split; [|split].
  - intros msg rest Hf. unfold perform. rewrite Hf. simpl. by eexists.
  - intros pos x Hgo Hloc Hx.
    destruct (perform_cases locate (JsonArrPop key Root index) w)
      as [(msg & rest & Hf & _) | ->]; [by destruct (Hgo msg rest)|].
    simpl. rewrite Hdoc. unfold memory_list.
    rewrite length_fmap, Hloc, list_lookup_fmap, Hx. simpl.
    eexists. split; [reflexivity|]. split; [done|].
    simpl. by rewrite delete_memory_list.
  - intros Hgo Hnone.
    destruct (perform_cases locate (JsonArrPop key Root index) w)
      as [(msg & rest & Hf & _) | ->]; [by destruct (Hgo msg rest)|].
    simpl. rewrite Hdoc. unfold memory_list. rewrite length_fmap.
    destruct Hnone as [-> | (pos & -> & Hx)]; simpl.
    + by eexists.
    + rewrite list_lookup_fmap, Hx. simpl. by eexists.
Qed.

(** X5. RemoveAt on a present but empty list finds nothing, whatever the
    index and however the store reads it, and the list stays present and
    empty.  (The index is printed as its decimal numeral when it is a safe
    integer.) *)
Theorem forget_on_empty_list_finds_nothing requestInfo user index w :
  signed_in requestInfo user → quiet w →
  docs w !! getMemoryKey user = Some (memory_list []) →
  ∃ rendered,
    renders index rendered ∧
    run locate (forget index requestInfo) w =
      (inl (text_result ("No memory item found at index " +:+ rendered +:+ ".")),
       World (docs w) (tail (faults w))
             (trace w ++ [Done (JsonArrPop (getMemoryKey user) Root index)])
             (clock w)).
Proof.
  intros Hin Hq Hdoc. exists (Number_toString index). split; [done|].
  rewrite (forget_quiet locate _ _ _ _ Hin Hq). simpl.
  rewrite Hdoc. simpl. by destruct (locate index 0%nat).
Qed.


(** X7. Recall answers the same for a key that is absent and for a key
    that holds the empty list. *)
Theorem recall_reads_empty_list_as_absent requestInfo user uri w1 w2 :
  signed_in requestInfo user → quiet w1 → quiet w2 →
  docs w1 !! getMemoryKey user = None →
  docs w2 !! getMemoryKey user = Some (memory_list []) →
  (run locate (recall stringify uri requestInfo) w1).1 =
  (run locate (recall stringify uri requestInfo) w2).1.
Proof.
  intros Hin Hq1 Hq2 Hdoc1 Hdoc2.
  rewrite (recall_quiet locate stringify uri _ _ _ Hin Hq1), Hdoc1.
  by rewrite (recall_quiet locate stringify uri _ _ _ Hin Hq2), Hdoc2.
Qed.

(** X8. When the existence check of Append fails, the handler answers with
    the error text and sends the store nothing more: no set and no append
    follow, and the documents are as they were. *)
Theorem failed_check_sends_no_write requestInfo user record msg rest w :
  signed_in requestInfo user →
  faults w = Some msg :: rest →
  run locate (remember record requestInfo) w =
    (inl (text_result ("Error storing memory item: " +:+ msg)),
     World (docs w) rest
           (trace w ++ [Failedcall (Exists (getMemoryKey user)) msg])
           (clock w)).
Proof.
  intros Hin Hf. sign Hin. unfold perform. by rewrite Hf.
Qed.

(** X9. Every response has the shape the protocol expects, whatever the
    input, the store and the faults: a tool result with exactly one item of
    type "text", a resource result with exactly one item of MIME type
    "application/json". *)
Theorem responses_have_one_item requestInfo record index uri w :
  (∃ resp w', run locate (remember record requestInfo) w = (inl resp, w') ∧
              one_text_item resp) ∧
  (∃ resp w', run locate (forget index requestInfo) w = (inl resp, w') ∧
              one_text_item resp) ∧
  (∃ resp w', run locate (recall stringify uri requestInfo) w = (inl resp, w') ∧
              one_json_item resp).
Proof.
  unfold remember, forget, recall, one_text_item, one_json_item.
  destruct (getUser requestInfo) as [[|a u]|]; simpl.
  1, 3: by repeat split; eexists _, _; (split; [reflexivity|]); eauto.
  set (key := getMemoryKey (String a u)).
  split; [|split].
  - destruct (perform_cases locate (Exists key) w) as [(msg & rest & _ & ->) | ->];
      simpl; [by eexists _, _; split; eauto|].
    destruct (docs w !! key) as [doc|]; simpl.
    all: match goal with |- context [perform locate ?c ?w1] =>
      destruct (perform_cases locate c w1) as [(msg & rest & _ & ->) | ->] end;
      simpl; by eexists _, _; split; eauto.
  - destruct (perform_cases locate (JsonArrPop key Root index) w)
      as [(msg & rest & _ & ->) | ->]; [by simpl; eexists _, _; split; eauto|].
    destruct (exec locate (JsonArrPop key Root index) (docs w)) as [[r|] d];
      simpl; by eexists _, _; split; eauto.
  - destruct (perform_cases locate (JsonGet key Root) w)
      as [(msg & rest & _ & ->) | ->]; simpl;
      [by eexists _, _; split; unfold json_contents; eauto|].
    destruct (docs w !! key); simpl;
      by eexists _, _; split; unfold json_contents; eauto.
Qed.


Ltac crank_on Hdoc :=
  repeat (simpl;
          first [ rewrite perform_quiet by quiet_tac
                | rewrite Hdoc
                | rewrite lookup_insert_eq ]);
  simpl.

(** X10. Two Appends in flight for the same user on a key that already
    holds a list lose nothing, however their steps interleave: both answer
    "Stored memory about: …" and the list ends with both records after the
    old items, in the order the appends reached the store. *)
Theorem concurrent_appends_to_a_list_keep_both
    requestA requestB user (items : list string) recordA recordB (sched : list bool) w :
  signed_in requestA user → signed_in requestB user → quiet w →
  docs w !! getMemoryKey user = Some (memory_list items) →
  takes true 3 sched → takes false 3 sched →
  ∃ w',
    interleave locate sched (remember recordA requestA) (remember recordB requestB) w =
      (Ret (text_result
              ("Stored memory about: " +:+ recordA +:+ " on " +:+ clock w +:+ " UTC")),
       Ret (text_result
              ("Stored memory about: " +:+ recordB +:+ " on " +:+ clock w +:+ " UTC")),
       w') ∧
    (docs w' !! getMemoryKey user = Some (memory_list (items ++ [recordA; recordB])) ∨
     docs w' !! getMemoryKey user = Some (memory_list (items ++ [recordB; recordA]))).
Proof.
  intros HinA HinB Hq Hdoc HA HB.
  pose proof (count_both sched) as Hlen. unfold takes in *.
  rewrite HA, HB in Hlen.
  destruct sched as [|b1 [|b2 [|b3 [|b4 [|b5 [|b6 [|b7 sched]]]]]]];
    try discriminate.
  apply signed_in_inv in HinA as (a & u & -> & HuA).
  destruct HinB as [HuB _].
  unfold remember. rewrite HuA, HuB.
  set (key := getMemoryKey (String a u)) in *.
  unfold memory_list in Hdoc |- *.
  destruct b1, b2, b3, b4, b5, b6; try discriminate.
  all: eexists; split; [crank_on Hdoc; reflexivity|].
  all: simpl; rewrite lookup_insert_eq, !fmap_app, <- !app_assoc; simpl; auto.
Qed.

(** X11. On an absent key, when one Append has checked and written before
    the other checks, nothing is lost either: the key ends up holding both
    records, the first writer's first. *)
Theorem append_after_finished_append_keeps_both
    requestA requestB user recordA recordB (first : bool) (rest : list bool) w :
  signed_in requestA user → signed_in requestB user → quiet w →
  docs w !! getMemoryKey user = None →
  takes true 3 (first :: first :: rest) → takes false 3 (first :: first :: rest) →
  ∃ w',
    interleave locate (first :: first :: rest)
      (remember recordA requestA) (remember recordB requestB) w =
      (Ret (text_result
              ("Stored memory about: " +:+ recordA +:+ " on " +:+ clock w +:+ " UTC")),
       Ret (text_result
              ("Stored memory about: " +:+ recordB +:+ " on " +:+ clock w +:+ " UTC")),
       w') ∧
    docs w' !! getMemoryKey user =
      Some (memory_list (if first then [recordA; recordB] else [recordB; recordA])).
Proof.
  intros HinA HinB Hq Hdoc HA HB.
  pose proof (count_both (first :: first :: rest)) as Hlen. unfold takes in *.
  rewrite HA, HB in Hlen.
  destruct rest as [|b3 [|b4 [|b5 [|b6 [|b7 rest]]]]]; try discriminate.
  apply signed_in_inv in HinA as (a & u & -> & HuA).
  destruct HinB as [HuB _].
  unfold remember. rewrite HuA, HuB.
  set (key := getMemoryKey (String a u)) in *.
  destruct first, b3, b4, b5, b6; try discriminate.
  all: eexists; split; [crank_on Hdoc; reflexivity|].
  all: simpl; by rewrite lookup_insert_eq.
Qed.

(** The list of a user after a sequence of requests in which the user only
    appends. *)
Lemma serve_all_appends requestInfo user (rs : list request) (acc : list string) w :
  signed_in requestInfo user → quiet w → only_remembers user rs →
  match acc with
  | [] => docs w !! getMemoryKey user = None
  | _ => docs w !! getMemoryKey user = Some (memory_list acc)
  end →
  quiet (serve_all locate stringify rs w) ∧
  match acc ++ remembered_by user rs with
  | [] => docs (serve_all locate stringify rs w) !! getMemoryKey user = None
  | l => docs (serve_all locate stringify rs w) !! getMemoryKey user =
           Some (memory_list l)
  end.
Proof.
  intros Hin. revert acc w.
  induction rs as [|r rs IH]; intros acc w Hq Honly Hacc.
  { simpl. rewrite app_nil_r. by destruct acc. }
  assert (only_remembers user rs) as Honly'
    by (intros r' Hr'; apply Honly; by right).
  assert (quiet (serve locate stringify r w)) as Hq'
    by (destruct r; simpl; by apply run_quiet).
  change (serve_all locate stringify (r :: rs) w)
    with (serve_all locate stringify rs (serve locate stringify r w)).
  destruct (decide (getUser (sender r) = Some user)) as [Hu|Hu].
  - destruct (Honly r) as [record Hr]; [by left | done |].
    destruct r as [record' req | index req | uri' req]; try discriminate.
    simpl in Hu, Hq'.
    assert (remembered_by user (Remember record' req :: rs) =
            record' :: remembered_by user rs) as ->
      by (unfold remembered_by; simpl; by rewrite decide_True).
    assert (signed_in req user) as Hin' by (split; [done | apply Hin]).
    replace (acc ++ record' :: remembered_by user rs)
      with ((acc ++ [record']) ++ remembered_by user rs)
      by (by rewrite <- app_assoc).
    apply IH; [done | done |].
    destruct acc as [|x acc]; simpl.
    + rewrite (remember_absent locate _ _ _ _ Hin' Hq Hacc). simpl.
      by rewrite lookup_insert_eq.
    + rewrite (remember_present locate _ _ _ _ _ Hin' Hq Hacc). simpl.
      rewrite lookup_insert_eq.
      change (x :: acc ++ [record']) with ((x :: acc) ++ [record']).
      unfold memory_list. by rewrite fmap_app.
  - assert (remembered_by user (r :: rs) = remembered_by user rs) as ->.
    { unfold remembered_by. simpl. destruct r; simpl in *; try done.
      by rewrite decide_False. }
    apply IH; [done | done |].
    rewrite (serve_other_user r user w Hu). done.
Qed.

(** X13. What a user appends survives what everybody else does.  After any
    sequence of requests in which the user only appends, on a key that was
    absent, with requests of other users and of guests in between and
    nothing failing, Recall renders exactly the user's records in the
    order they were appended. *)
Theorem appends_survive_other_users requestInfo user uri (rs : list request) w :
  signed_in requestInfo user → quiet w →
  docs w !! getMemoryKey user = None →
  only_remembers user rs →
  (run locate (recall stringify uri requestInfo)
     (serve_all locate stringify rs w)).1 =
    inl (json_contents (href uri) (stringify (memory_list (remembered_by user rs)))).
Proof.
  intros Hin Hq Hdoc Honly.
  destruct (serve_all_appends requestInfo user rs [] w Hin Hq Honly Hdoc)
    as [Hq' Hdoc'].
  rewrite (recall_quiet locate stringify uri _ _ _ Hin Hq'). simpl in Hdoc'.
  destruct (remembered_by user rs); by rewrite Hdoc'.
Qed.

(** X14. Indices move after a removal.  Removing at i and then at j, for
    i < j read off the list as it was before, the store reading both as
    0-based positions, removes the element that was at i and then the one
    that was at j+1, not the one that was at j. *)
Theorem stale_index_removes_the_next_element
    requestInfo user (items : list string) i j w :
  signed_in requestInfo user → quiet w →
  docs w !! getMemoryKey user = Some (memory_list items) →
  0 ≤ i < j → j + 1 < Z.of_nat (length items) →
  locate i (length items) = Some (Z.to_nat i) →
  locate j (length (delete (Z.to_nat i) items)) = Some (Z.to_nat j) →
  ∃ x y w',
    items !! Z.to_nat i = Some x ∧ items !! S (Z.to_nat j) = Some y ∧
    (run locate (forget i requestInfo) w).1 =
      inl (text_result
             ("Removed memory item at index " +:+ Number_toString i +:+
              " about: " +:+ x)) ∧
    run locate (forget j requestInfo) (run locate (forget i requestInfo) w).2 =
      (inl (text_result
              ("Removed memory item at index " +:+ Number_toString j +:+
               " about: " +:+ y)), w') ∧
    docs w' !! getMemoryKey user =
      Some (memory_list (delete (Z.to_nat j) (delete (Z.to_nat i) items))).
Proof.
  intros Hin Hq Hdoc Hij Hj Hloci Hlocj.
  destruct (lookup_lt_is_Some_2 items (Z.to_nat i)) as [x Hx]; [lia|].
  destruct (lookup_lt_is_Some_2 items (S (Z.to_nat j))) as [y Hy]; [lia|].
  pose proof (forget_hit locate _ _ _ _ _ _ _ Hin Hq Hdoc Hloci Hx) as H1.
  exists x, y. eexists. split; [done|]. split; [done|].
  rewrite H1. split; [done|]. split.
  - apply (forget_hit locate j requestInfo user (delete (Z.to_nat i) items)
             (Z.to_nat j) y); try done.
    + by apply quiet_tail.
    + simpl. by rewrite lookup_insert_eq.
    + rewrite list_lookup_delete_ge by lia. done.
  - simpl. by rewrite lookup_insert_eq.
Qed.

End Further.

(** * The further properties at concrete inputs *)

Lemma busy_day_only_remembers : only_remembers "alice@example.com" busy_day.
Proof.
  intros r Hr Hu. unfold busy_day in Hr.
  repeat (apply elem_of_cons in Hr as [-> | Hr];
          [first [ by vm_compute in Hu | eexists; reflexivity ] |]).
  by apply elem_of_nil in Hr.
Qed.

Lemma memory_keys_are_distinct_witness :
  "alice@example.com" ≠ "bob@example.com" ∧
  getMemoryKey "alice@example.com" ≠ getMemoryKey "bob@example.com".
Proof.
  split; [discriminate|].
  apply (memory_keys_are_distinct "alice@example.com" "bob@example.com").
  discriminate.
Defined.

Lemma handlers_leave_other_users_alone_witness :
  getUser alice ≠ Some "bob@example.com" ∧
  docs (run locate_spec (remember "has a cat" alice) shared).2
    !! getMemoryKey "bob@example.com" =
    docs shared !! getMemoryKey "bob@example.com" ∧
  docs (run locate_spec (forget 0 alice) shared).2
    !! getMemoryKey "bob@example.com" =
    docs shared !! getMemoryKey "bob@example.com" ∧
  docs (run locate_spec (recall JSON_stringify recall_uri alice) shared).2
    !! getMemoryKey "bob@example.com" =
    docs shared !! getMemoryKey "bob@example.com".
Proof.
  assert (getUser alice ≠ Some "bob@example.com") as Hother
    by (vm_compute; discriminate).
  split; [exact Hother|].
  exact (handlers_leave_other_users_alone locate_spec JSON_stringify alice
           "bob@example.com" "has a cat" 0 recall_uri shared Hother).
Defined.

Lemma recall_is_read_only_witness :
  docs (run locate_spec (recall JSON_stringify recall_uri alice) two_memories).2 =
    docs two_memories ∧
  (quiet two_memories →
   (run locate_spec (recall JSON_stringify recall_uri alice)
      (run locate_spec (recall JSON_stringify recall_uri alice) two_memories).2).1 =
   (run locate_spec (recall JSON_stringify recall_uri alice) two_memories).1).
Proof.
  exact (recall_is_read_only locate_spec JSON_stringify recall_uri alice
           two_memories).
Defined.

Lemma forget_removes_one_or_none_witness :
  signed_in alice "alice@example.com" ∧
  docs two_memories !! getMemoryKey "alice@example.com" =
    Some (memory_list ["likes tea"; "works at Acme"]) ∧
  goes_through two_memories ∧
  locate_spec 1 (length ["likes tea"; "works at Acme"]) = Some 1%nat ∧
  ["likes tea"; "works at Acme"] !! 1%nat = Some "works at Acme" ∧
  ∃ w',
    run locate_spec (forget 1 alice) two_memories =
      (inl (text_result
              ("Removed memory item at index " +:+ Number_toString 1 +:+
               " about: " +:+ "works at Acme")), w') ∧
    trace w' =
      trace two_memories ++
      [Done (JsonArrPop (getMemoryKey "alice@example.com") Root 1)] ∧
    docs w' =
      <[getMemoryKey "alice@example.com" :=
          memory_list (delete 1%nat ["likes tea"; "works at Acme"])]>
        (docs two_memories).
Proof.
  assert (goes_through two_memories) as Hgo by (intros msg rest; discriminate).
  split; [exact alice_signed_in|]. split; [reflexivity|].
  split; [exact Hgo|]. split; [reflexivity|]. split; [reflexivity|].
  destruct (forget_removes_one_or_none locate_spec alice "alice@example.com"
              ["likes tea"; "works at Acme"] 1 two_memories
              alice_signed_in eq_refl)
    as (rendered & Hrendered & _ & Hhit & _).
  rewrite <- Hrendered by (unfold safe_integer; lia).
  exact (Hhit 1%nat "works at Acme" Hgo eq_refl eq_refl).
Defined.

Lemma forget_on_empty_list_finds_nothing_witness :
  signed_in alice "alice@example.com" ∧ quiet emptied ∧
  docs emptied !! getMemoryKey "alice@example.com" = Some (memory_list []) ∧
  run locate_spec (forget 0 alice) emptied =
    (inl (text_result
            ("No memory item found at index " +:+ Number_toString 0 +:+ ".")),
     World (docs emptied) (tail (faults emptied))
           (trace emptied ++
            [Done (JsonArrPop (getMemoryKey "alice@example.com") Root 0)])
           (clock emptied)).
Proof.
  split; [exact alice_signed_in|]. split; [exact calm_nil|].
  split; [reflexivity|].
  destruct (forget_on_empty_list_finds_nothing locate_spec alice
              "alice@example.com" 0 emptied alice_signed_in calm_nil eq_refl)
    as (rendered & Hrendered & Hrun).
  rewrite Hrun, Hrendered; [reflexivity|].
  unfold safe_integer. lia.
Defined.


Lemma recall_reads_empty_list_as_absent_witness :
  signed_in alice "alice@example.com" ∧ quiet fresh ∧ quiet emptied ∧
  docs fresh !! getMemoryKey "alice@example.com" = None ∧
  docs emptied !! getMemoryKey "alice@example.com" = Some (memory_list []) ∧
  (run locate_spec (recall JSON_stringify recall_uri alice) fresh).1 =
  (run locate_spec (recall JSON_stringify recall_uri alice) emptied).1.
Proof.
  split; [exact alice_signed_in|]. split; [exact calm_nil|].
  split; [exact calm_nil|]. split; [reflexivity|]. split; [reflexivity|].
  apply (recall_reads_empty_list_as_absent locate_spec JSON_stringify alice
           "alice@example.com" recall_uri fresh emptied);
    [exact alice_signed_in | exact calm_nil | exact calm_nil
    | reflexivity | reflexivity].
Defined.

Lemma failed_check_sends_no_write_witness :
  signed_in alice "alice@example.com" ∧
  faults shared = Some "fetch failed" :: [] ∧
  run locate_spec (remember "has a cat" alice) shared =
    (inl (text_result ("Error storing memory item: " +:+ "fetch failed")),
     World (docs shared) []
           (trace shared ++
            [Failedcall (Exists (getMemoryKey "alice@example.com")) "fetch failed"])
           (clock shared)).
Proof.
  split; [exact alice_signed_in|]. split; [reflexivity|].
  apply (failed_check_sends_no_write locate_spec alice "alice@example.com"
           "has a cat" "fetch failed" [] shared);
    [exact alice_signed_in | reflexivity].
Defined.

Lemma concurrent_appends_to_a_list_keep_both_witness :
  signed_in alice "alice@example.com" ∧ quiet two_memories ∧
  docs two_memories !! getMemoryKey "alice@example.com" =
    Some (memory_list ["likes tea"; "works at Acme"]) ∧
  takes true 3 [true; false; false; true; true; false] ∧
  takes false 3 [true; false; false; true; true; false] ∧
  ∃ w',
    interleave locate_spec [true; false; false; true; true; false]
      (remember "has a cat" alice) (remember "plays chess" alice) two_memories =
      (Ret (text_result
              ("Stored memory about: " +:+ "has a cat" +:+ " on " +:+
               clock two_memories +:+ " UTC")),
       Ret (text_result
              ("Stored memory about: " +:+ "plays chess" +:+ " on " +:+
               clock two_memories +:+ " UTC")),
       w') ∧
    (docs w' !! getMemoryKey "alice@example.com" =
       Some (memory_list (["likes tea"; "works at Acme"] ++
                          ["has a cat"; "plays chess"])) ∨
     docs w' !! getMemoryKey "alice@example.com" =
       Some (memory_list (["likes tea"; "works at Acme"] ++
                          ["plays chess"; "has a cat"]))).
Proof.
  split; [exact alice_signed_in|]. split; [exact calm_nil|].
  split; [reflexivity|]. split; [reflexivity|]. split; [reflexivity|].
  apply (concurrent_appends_to_a_list_keep_both locate_spec alice alice
           "alice@example.com" ["likes tea"; "works at Acme"]
           "has a cat" "plays chess" [true; false; false; true; true; false]
           two_memories);
    [exact alice_signed_in | exact alice_signed_in | exact calm_nil
    | reflexivity | reflexivity | reflexivity].
Defined.

Lemma append_after_finished_append_keeps_both_witness :
  signed_in alice "alice@example.com" ∧ quiet fresh ∧
  docs fresh !! getMemoryKey "alice@example.com" = None ∧
  takes true 3 [true; true; false; false; true; false] ∧
  takes false 3 [true; true; false; false; true; false] ∧
  ∃ w',
    interleave locate_spec [true; true; false; false; true; false]
      (remember "likes tea" alice) (remember "works at Acme" alice) fresh =
      (Ret (text_result
              ("Stored memory about: " +:+ "likes tea" +:+ " on " +:+
               clock fresh +:+ " UTC")),
       Ret (text_result
              ("Stored memory about: " +:+ "works at Acme" +:+ " on " +:+
               clock fresh +:+ " UTC")),
       w') ∧
    docs w' !! getMemoryKey "alice@example.com" =
      Some (memory_list ["likes tea"; "works at Acme"]).
Proof.
  split; [exact alice_signed_in|]. split; [exact calm_nil|].
  split; [reflexivity|]. split; [reflexivity|]. split; [reflexivity|].
  apply (append_after_finished_append_keeps_both locate_spec alice alice
           "alice@example.com" "likes tea" "works at Acme" true
           [false; false; true; false] fresh);
    [exact alice_signed_in | exact alice_signed_in | exact calm_nil
    | reflexivity | reflexivity | reflexivity].
Defined.

Lemma appends_survive_other_users_witness :
  signed_in alice "alice@example.com" ∧ quiet fresh ∧
  docs fresh !! getMemoryKey "alice@example.com" = None ∧
  only_remembers "alice@example.com" busy_day ∧
  remembered_by "alice@example.com" busy_day = ["likes tea"; "works at Acme"] ∧
  (run locate_spec (recall JSON_stringify recall_uri alice)
     (serve_all locate_spec JSON_stringify busy_day fresh)).1 =
    inl (json_contents (href recall_uri)
           (JSON_stringify
              (memory_list (remembered_by "alice@example.com" busy_day)))).
Proof.
  split; [exact alice_signed_in|]. split; [exact calm_nil|].
  split; [reflexivity|]. split; [exact busy_day_only_remembers|].
  split; [reflexivity|].
  apply (appends_survive_other_users locate_spec JSON_stringify alice
           "alice@example.com" recall_uri busy_day fresh);
    [exact alice_signed_in | exact calm_nil | reflexivity
    | exact busy_day_only_remembers].
Defined.

Lemma stale_index_removes_the_next_element_witness :
  signed_in alice "alice@example.com" ∧ quiet three_memories ∧
  docs three_memories !! getMemoryKey "alice@example.com" =
    Some (memory_list ["likes tea"; "works at Acme"; "has a cat"]) ∧
  0 ≤ 0 < 1 ∧
  1 + 1 < Z.of_nat (length ["likes tea"; "works at Acme"; "has a cat"]) ∧
  ∃ x y w',
    ["likes tea"; "works at Acme"; "has a cat"] !! Z.to_nat 0 = Some x ∧
    ["likes tea"; "works at Acme"; "has a cat"] !! S (Z.to_nat 1) = Some y ∧
    (run locate_spec (forget 0 alice) three_memories).1 =
      inl (text_result
             ("Removed memory item at index " +:+ Number_toString 0 +:+
              " about: " +:+ x)) ∧
    run locate_spec (forget 1 alice)
      (run locate_spec (forget 0 alice) three_memories).2 =
      (inl (text_result
              ("Removed memory item at index " +:+ Number_toString 1 +:+
               " about: " +:+ y)), w') ∧
    docs w' !! getMemoryKey "alice@example.com" =
      Some (memory_list
              (delete (Z.to_nat 1)
                 (delete (Z.to_nat 0) ["likes tea"; "works at Acme"; "has a cat"]))).
Proof.
  split; [exact alice_signed_in|]. split; [exact calm_nil|].
  split; [reflexivity|]. split; [lia|]. split; [simpl; lia|].
  apply (stale_index_removes_the_next_element locate_spec alice
           "alice@example.com" ["likes tea"; "works at Acme"; "has a cat"] 0 1
           three_memories);
    [exact alice_signed_in | exact calm_nil | reflexivity | lia | simpl; lia
    | reflexivity | reflexivity].
Defined.


